(** * Reinsurance loss dashboard: the computational core, embedded and verified

    The dashboard script [successfulreinsurancedash.py] reads a table of
    policy records, filters it on three columns, computes portfolio
    metrics, aggregates measures per group and prints amounts in a short
    dollar notation.  This development embeds those computations as Rocq
    functions and proves the properties stated for them.

    Conventions of the embedding.

    - A row of the table is a record with the seven required columns.  The
      schema check looks at column names only, so any cell may be blank: a
      blank key cell is [None], a blank measure cell is the float
      not-a-number.
    - A measure cell is a [number]: an [int64] integer or a binary64 float
      ([spec_float] at precision 53), as pandas reads them.  Integer sums
      and differences wrap around as [int64] does; quotients are binary64
      divisions.
    - How the library adds the cells of a float column is not in the
      script: [Series.sum] and the sum of a [groupby] each use an algorithm
      of their own.  Each is a parameter, a function from the floats of the
      column, in row order, to their sum.
    - [format_dollars_short] is embedded on binary64 numbers, because its
      decimal rounding is decided by the binary value of its argument. *)

From Stdlib Require Import List Bool Ascii String ZArith NArith QArith Lia.
From Stdlib Require Import Floats.SpecFloat.
From Stdlib Require Import Structures.OrderedTypeEx.
From Stdlib Require Import Sorting.Permutation.
Import ListNotations.

Local Open Scope string_scope.
Local Open Scope list_scope.

(** ** Numbers *)

(** Python floats are IEEE-754 binary64 numbers. *)
Definition float : Type := spec_float.
Definition prec : Z := 53.
Definition emax : Z := 1024.

(** The float of an integer literal (exact up to 2^53). *)
Definition float_of_Z (z : Z) : float := binary_normalize prec emax z 0 false.

(** [a / b] and [a >= b] on floats. *)
Definition float_div (a b : float) : float := SFdiv prec emax a b.
Definition float_ge (a b : float) : bool := SFleb b a.

(** A measure cell, or a numpy scalar computed from such cells.  pandas
    reads a numeric column as [int64] when every cell is an integer and as
    [float64] otherwise; a blank cell is then not-a-number. *)
Inductive number : Type :=
| Int64 (z : Z)
| Float64 (f : float).

(** The wrap-around of [int64] arithmetic: the integer of the same residue
    modulo 2^64 between -2^63 and 2^63 - 1. *)
Definition wrap64 (z : Z) : Z := ((z + 2 ^ 63) mod 2 ^ 64 - 2 ^ 63)%Z.

(** The conversion of a scalar to [float64] (to the nearest float, for an
    integer beyond 2^53). *)
Definition to_float (x : number) : float :=
  match x with
  | Int64 z => float_of_Z z
  | Float64 f => f
  end.

Definition is_nan (f : float) : bool :=
  match f with
  | S754_nan => true
  | _ => false
  end.

Definition is_int64 (x : number) : bool :=
  match x with
  | Int64 _ => true
  | Float64 _ => false
  end.

(** The integer of an [int64] scalar. *)
Definition int_value (x : number) : Z :=
  match x with
  | Int64 z => z
  | Float64 _ => 0%Z
  end.

(** The truth value of a number in a condition: it is not zero (so
    not-a-number and the infinities are true). *)
Definition truthy (x : number) : bool :=
  match x with
  | Int64 z => negb (z =? 0)%Z
  | Float64 f => negb (SFeqb f (S754_zero false))
  end.

(** [a / b] on numpy scalars: both are converted to [float64] and divided.
    numpy does not raise on a zero divisor: the quotient is then an
    infinity, or not-a-number. *)
Definition truediv (a b : number) : number :=
  Float64 (float_div (to_float a) (to_float b)).

(** [a - b] on numpy scalars: in [int64] when both are integers, in
    [float64] otherwise. *)
Definition number_sub (a b : number) : number :=
  match a, b with
  | Int64 x, Int64 y => Int64 (wrap64 (x - y))
  | _, _ => Float64 (SFsub prec emax (to_float a) (to_float b))
  end.

(** [sum()] of the cells of a column, in row order.  A column of integers
    is added in [int64].  Of any other column the cells that are numbers
    are added as floats ([skipna]), by the library's summation
    [float_sum].  Over no cells the sum is 0, written [Int64 0]: of a float
    column without rows pandas returns the float 0.0, which the script
    does not tell from the integer 0 (same truth value, same difference,
    same printed text). *)
Definition column_sum (float_sum : list float -> float) (cells : list number) : number :=
  if forallb is_int64 cells
  then Int64 (wrap64 (fold_right Z.add 0%Z (map int_value cells)))
  else Float64 (float_sum (filter (fun f => negb (is_nan f)) (map to_float cells))).

(** ** Data model *)

(** A cell of the table as the reader returns it: nothing is known about
    the cells of an uploaded file. *)
Inductive cell : Type :=
| CellText (s : string)
| CellNumber (q : Q)
| CellEmpty.

(** A [Year] cell is an integer or a string-encoded year. *)
Inductive year_value : Type :=
| YearInt (y : Z)
| YearStr (s : string).

Definition year_eqb (a b : year_value) : bool :=
  match a, b with
  | YearInt x, YearInt y => Z.eqb x y
  | YearStr s, YearStr t => String.eqb s t
  | _, _ => false
  end.

(** A key cell may be blank.  In [unique] and [isin] a blank cell equals a
    blank cell and nothing else. *)
Definition blank_or (A : Type) : Type := option A.

Definition blank_eqb {A : Type} (eqb : A -> A -> bool) (a b : blank_or A) : bool :=
  match a, b with
  | Some x, Some y => eqb x y
  | None, None => true
  | _, _ => false
  end.

Definition text_eqb : blank_or string -> blank_or string -> bool :=
  blank_eqb String.eqb.

Definition year_cell_eqb : blank_or year_value -> blank_or year_value -> bool :=
  blank_eqb year_eqb.

(** One row of the uploaded table; the field names are the column names of
    [REQUIRED_COLUMNS] with the blank replaced by an underscore.  The cells
    of any further column of the file travel with the row. *)
Record PolicyRecord : Type := mkRecord {
  Region : blank_or string;
  Loss_Amount : number;
  Policy_Type : blank_or string;
  Year : blank_or year_value;
  Claim_Count : number;
  Risk_Category : blank_or string;
  Premium_Collected : number;
  Other_Cells : list cell
}.

(** The data frame [df]: the rows in file order. *)
Definition DataFrame : Type := list PolicyRecord.

(** ** Filter engine (source lines 65-74) *)

(** [Series.unique()]: the distinct values in order of first appearance. *)
Fixpoint unique {A : Type} (eqb : A -> A -> bool) (s : list A) : list A :=
  match s with
  | [] => []
  | x :: rest => x :: filter (fun y => negb (eqb x y)) (unique eqb rest)
  end.

(** [Series.isin(values)] at one cell. *)
Definition isin {A : Type} (eqb : A -> A -> bool) (x : A) (values : list A) : bool :=
  existsb (eqb x) values.

(** The three multiselect results. *)
Record FilterSelection : Type := mkSelection {
  region_filter : list (blank_or string);
  year_filter : list (blank_or year_value);
  policy_filter : list (blank_or string)
}.

(** The [default=] arguments of the three multiselects. *)
Definition default_selection (df : DataFrame) : FilterSelection :=
  {| region_filter := unique text_eqb (map Region df);
     year_filter := unique year_cell_eqb (map Year df);
     policy_filter := unique text_eqb (map Policy_Type df) |}.

(** The boolean mask of line 71-73 at one row. *)
Definition mask (sel : FilterSelection) (r : PolicyRecord) : bool :=
  isin text_eqb (Region r) (region_filter sel)
  && isin year_cell_eqb (Year r) (year_filter sel)
  && isin text_eqb (Policy_Type r) (policy_filter sel).

(** [filtered_df = df[mask]]. *)
Definition filtered_df (df : DataFrame) (sel : FilterSelection) : DataFrame :=
  filter (mask sel) df.

(** ** Metrics engine (source lines 132-138) *)

Section Metrics.
(** The summation of floats that [Series.sum] uses. *)
Variable series_float_sum : list float -> float.

(** [Series.sum()]. *)
Definition Series_sum (cells : list number) : number :=
  column_sum series_float_sum cells.

Definition total_premium (fd : DataFrame) : number :=
  Series_sum (map Premium_Collected fd).

Definition total_loss (fd : DataFrame) : number :=
  Series_sum (map Loss_Amount fd).

Definition claim_count (fd : DataFrame) : number :=
  Series_sum (map Claim_Count fd).

Definition loss_ratio (fd : DataFrame) : number :=
  if truthy (total_premium fd)
  then truediv (total_loss fd) (total_premium fd)
  else Int64 0.

Definition avg_severity (fd : DataFrame) : number :=
  if truthy (claim_count fd)
  then truediv (total_loss fd) (claim_count fd)
  else Int64 0.

Definition underwriting_margin (fd : DataFrame) : number :=
  number_sub (total_premium fd) (total_loss fd).

Definition margin_percent (fd : DataFrame) : number :=
  if truthy (total_premium fd)
  then truediv (underwriting_margin fd) (total_premium fd)
  else Int64 0.
End Metrics.

(** ** Aggregation engine (source lines 166-179) *)

(** The columns offered for grouping by the radio button (line 164) and by
    the pie-chart select box (line 178). *)
Inductive dimension : Type :=
| ByRegion
| ByYear
| ByPolicyType
| ByRiskCategory.

(** A group key: the cell of the grouping column, when it is not blank. *)
Inductive label : Type :=
| LInt (z : Z)
| LStr (s : string).

Definition year_label (y : year_value) : label :=
  match y with
  | YearInt z => LInt z
  | YearStr s => LStr s
  end.

(** [row[dimension]]; [None] for a blank cell. *)
Definition group_key (d : dimension) (r : PolicyRecord) : option label :=
  match d with
  | ByRegion => option_map LStr (Region r)
  | ByYear => option_map year_label (Year r)
  | ByPolicyType => option_map LStr (Policy_Type r)
  | ByRiskCategory => option_map LStr (Risk_Category r)
  end.

(** The order in which [groupby] (with its default [sort=True]) lists the
    group keys: integers by value, strings by code point, integers before
    strings. *)
Definition label_compare (a b : label) : comparison :=
  match a, b with
  | LInt x, LInt y => Z.compare x y
  | LInt _, LStr _ => Lt
  | LStr _, LInt _ => Gt
  | LStr s, LStr t => String.compare s t
  end.

Definition label_eqb (a b : label) : bool :=
  match label_compare a b with Eq => true | _ => false end.

Section GroupBy.
(** What a group gathers from its rows. *)
Variable V : Type.
Variable add : V -> V -> V.

(** Add the contribution [v] of one data row to the group [k], opening the
    group at its sorted position when it is new. *)
Fixpoint accumulate (k : label) (v : V) (t : list (label * V)) : list (label * V) :=
  match t with
  | [] => [(k, v)]
  | (k', v') :: t' =>
      match label_compare k k' with
      | Lt => (k, v) :: t
      | Eq => (k', add v' v) :: t'
      | Gt => (k', v') :: accumulate k v t'
      end
  end.
End GroupBy.

Arguments accumulate {V} add k v t.

(** [df.groupby(key)]: the groups in key order, each with the cells of its
    rows in row order.  A row whose key cell is blank belongs to no group
    (the default [dropna=True]). *)
Definition group_cells {V : Type} (key : PolicyRecord -> option label)
    (val : PolicyRecord -> V) (df : DataFrame) : list (label * list V) :=
  fold_left (fun t r =>
               match key r with
               | Some k => accumulate (@app V) k [val r] t
               | None => t
               end) df [].

(** One row of the table of the margin chart. *)
Record MarginRow : Type := mkMarginRow {
  mr_key : label;
  mr_premium : number;
  mr_loss : number;
  mr_margin : number
}.

Section Aggregation.
(** The summation of floats that the sum of a [groupby] uses. *)
Variable group_float_sum : list float -> float.

(** [df.groupby(key)[measure].sum().reset_index()]. *)
Definition groupby_sum (key : PolicyRecord -> option label)
    (val : PolicyRecord -> number) (df : DataFrame) : list (label * number) :=
  map (fun kc : label * list number =>
         (fst kc, column_sum group_float_sum (snd kc)))
      (group_cells key val df).

(** Lines 167 and 179: [filtered_df.groupby(d)["Loss Amount"].sum()]. *)
Definition loss_group (d : dimension) (fd : DataFrame) : list (label * number) :=
  groupby_sum (group_key d) Loss_Amount fd.

(** Lines 172-173: both measures summed per group, then the derived
    column [Underwriting Margin]. *)
Definition margin_group (d : dimension) (fd : DataFrame) : list MarginRow :=
  map (fun kc : label * list (number * number) =>
         let premium := column_sum group_float_sum (map fst (snd kc)) in
         let loss := column_sum group_float_sum (map snd (snd kc)) in
         {| mr_key := fst kc;
            mr_premium := premium;
            mr_loss := loss;
            mr_margin := number_sub premium loss |})
      (group_cells (group_key d)
         (fun r => (Premium_Collected r, Loss_Amount r)) fd).
End Aggregation.

(** ** Currency display (source lines 76-85) *)

(** Rounding of the fraction [num / den] ([den > 0], [num >= 0]) to the
    nearest integer, a tie going to the even one: the rounding of Python's
    fixed-point presentation type ['f']. *)
Definition round_half_even (num den : Z) : Z :=
  let q := (num / den)%Z in
  match (2 * (num mod den) ?= den)%Z with
  | Lt => q
  | Eq => if Z.even q then q else (q + 1)%Z
  | Gt => (q + 1)%Z
  end.

(** The integer nearest to [m * 2^e * 10^ndigits]. *)
Definition scaled_magnitude (ndigits : nat) (m : positive) (e : Z) : Z :=
  match e with
  | Zneg p => round_half_even (Zpos m * 10 ^ Z.of_nat ndigits) (2 ^ Zpos p)
  | _ => (Zpos m * 2 ^ e * 10 ^ Z.of_nat ndigits)%Z
  end.

(** The decimal digits of a natural number, most significant first. *)
Definition digit_char (d : Z) : ascii :=
  ascii_of_N (48 + Z.to_N d).

Fixpoint digits_fuel (fuel : nat) (z : Z) (acc : list ascii) : list ascii :=
  match fuel with
  | O => acc
  | S fuel' =>
      let acc' := digit_char (z mod 10) :: acc in
      if (z / 10 =? 0)%Z then acc' else digits_fuel fuel' (z / 10)%Z acc'
  end.

Definition digits (z : Z) : list ascii :=
  digits_fuel (S (Z.to_nat (Z.log2 z))) z [].

(** The [','] option: a comma between groups of three digits, counted from
    the right; the argument is the digit list reversed. *)
Fixpoint group_thousands_rev (ds : list ascii) : list ascii :=
  match ds with
  | a :: b :: c :: ((_ :: _) as more) =>
      a :: b :: c :: ","%char :: group_thousands_rev more
  | _ => ds
  end.

Definition group_thousands (ds : list ascii) : list ascii :=
  rev (group_thousands_rev (rev ds)).

(** The fraction digits, padded with zeros on the left to [ndigits]. *)
Definition fraction_digits (ndigits : nat) (z : Z) : list ascii :=
  let ds := digits z in
  repeat "0"%char (ndigits - List.length ds) ++ ds.

Definition sign_string (negative : bool) : string :=
  if negative then "-" else "".

(** The format specifications [.{ndigits}f] and [,.{ndigits}f] applied to
    a float. *)
Definition format_fixed (grouping : bool) (ndigits : nat) (x : float) : string :=
  match x with
  | S754_nan => "nan"
  | S754_infinity s => sign_string s ++ "inf"
  | _ =>
      let k := match x with
               | S754_finite _ m e => scaled_magnitude ndigits m e
               | _ => 0%Z
               end in
      let s := match x with
               | S754_finite s _ _ | S754_zero s => s
               | _ => false
               end in
      let unit := (10 ^ Z.of_nat ndigits)%Z in
      let whole := digits (k / unit) in
      sign_string s
      ++ string_of_list_ascii (if grouping then group_thousands whole else whole)
      ++ match ndigits with
         | O => ""
         | _ => "." ++ string_of_list_ascii (fraction_digits ndigits (k mod unit))
         end
  end.

(** The argument is a float; an integer argument is the float of the same
    value ([float_of_Z]), on which the comparisons, the division and the
    printing of the source agree with those of the integer. *)
Definition format_dollars_short (n : float) : string :=
  let abs_n := SFabs n in
  if float_ge abs_n (float_of_Z 1000000000) then
    "$" ++ format_fixed false 1 (float_div n (float_of_Z 1000000000)) ++ "B"
  else if float_ge abs_n (float_of_Z 1000000) then
    "$" ++ format_fixed false 1 (float_div n (float_of_Z 1000000)) ++ "M"
  else if float_ge abs_n (float_of_Z 1000) then
    "$" ++ format_fixed false 1 (float_div n (float_of_Z 1000)) ++ "K"
  else
    "$" ++ format_fixed true 0 n.

(** ** Upload and schema validation (source lines 12-55) *)

Definition REQUIRED_COLUMNS : list string :=
  [ "Region"; "Loss Amount"; "Policy Type";
    "Year"; "Claim Count"; "Risk Category"; "Premium Collected" ].

(** The data frame built by [pd.read_csv] / [pd.read_excel]. *)
Record RawTable : Type := mkRawTable {
  columns : list string;
  cells : list (list cell)
}.

(** The reader returns a table or raises an exception with a message. *)
Inductive read_result : Type :=
| ReadFailed (e : string)
| ReadOk (t : RawTable).

(** [st.session_state]: the flag [file_uploaded] and the stored [df]. *)
Record SessionState : Type := mkSession {
  file_uploaded : bool;
  df : option RawTable
}.

(** The state of a fresh session (lines 18-19). *)
Definition initial_session : SessionState :=
  {| file_uploaded := false; df := None |}.

(** How the script run ends: [st.rerun()], [st.stop()], or by reaching the
    end of the script. *)
Inductive control : Type :=
| Rerun
| Stop
| EndOfScript.

Record RunResult : Type := mkRun {
  session_after : SessionState;
  shown_errors : list string;
  ended_by : control
}.

(** [col in df.columns]. *)
Definition column_present (t : RawTable) (col : string) : bool :=
  existsb (String.eqb col) (columns t).

(** [all(col in df.columns for col in REQUIRED_COLUMNS)] (line 46). *)
Definition has_required_columns (t : RawTable) : bool :=
  forallb (column_present t) REQUIRED_COLUMNS.

(** Lines 39-55, run with an uploaded file whose reading gave [r]. *)
Definition handle_upload (s : SessionState) (r : read_result) : RunResult :=
  match r with
  | ReadFailed e =>
      {| session_after := s;
         shown_errors := [("❌ Failed to read file: " ++ e)%string];
         ended_by := EndOfScript |}
  | ReadOk t =>
      if negb (has_required_columns t) then
        {| session_after := s;
           shown_errors := ["❌ Uploaded file is missing one or more required columns."];
           ended_by := Stop |}
      else
        {| session_after := {| file_uploaded := true; df := Some t |};
           shown_errors := [];
           ended_by := Rerun |}
  end.

(** ** The script as a whole (source lines 18-58) *)

(** One run of the script.  On the welcome screen an uploaded file, when
    there is one, is handled; once [file_uploaded] is set the dashboard
    branch runs instead, which reads the session and writes nothing to
    it. *)
Definition script_run (s : SessionState) (uploaded_file : option read_result) : RunResult :=
  if negb (file_uploaded s) then
    match uploaded_file with
    | Some r => handle_upload s r
    | None => {| session_after := s; shown_errors := []; ended_by := EndOfScript |}
    end
  else
    {| session_after := s; shown_errors := []; ended_by := EndOfScript |}.

(** The session after a series of runs, one uploader state per run. *)
Definition run_all (s : SessionState) (uploads : list (option read_result)) : SessionState :=
  fold_left (fun s u => session_after (script_run s u)) uploads s.

(** ** Key figures and their display (source lines 140-159) *)

(** The format specification [.2%]: the float times 100, in fixed-point
    notation with two decimals, then a percent sign. *)
Definition format_percent (x : float) : string :=
  format_fixed false 2 (SFmul prec emax x (float_of_Z 100)) ++ "%".

(** The dictionary [kpis], as the list of its items in insertion order. *)
Definition kpis (total_premium total_loss loss_ratio avg_severity
                 underwriting_margin margin_percent : float) : list (string * string) :=
  [ ("Total Premium", format_dollars_short total_premium);
    ("Total Loss", format_dollars_short total_loss);
    ("Loss Ratio", format_percent loss_ratio);
    ("Avg Claim Severity", format_dollars_short avg_severity);
    ("Underwriting Margin", format_dollars_short underwriting_margin);
    ("Margin %", format_percent margin_percent) ].

Definition kpi_colors : list string :=
  [ "#e0f7fa"; "#ffe0b2"; "#dcedc8"; "#f8bbd0"; "#c5cae9"; "#fff9c4" ].

(** [st.columns(3)]: the three columns, by their index. *)
Definition kpi_cols : list nat := [0; 1; 2]%nat.

(** One coloured box: the column it is written to, its colour and the
    item it shows. *)
Record KpiBox : Type := mkBox {
  box_column : nat;
  box_color : string;
  box_label : string;
  box_value : string
}.

(** [zip] of three lists: it stops with the shortest. *)
Fixpoint zip3 {A B C : Type} (xs : list A) (ys : list B) (zs : list C) : list (A * B * C) :=
  match xs, ys, zs with
  | x :: xs', y :: ys', z :: zs' => (x, y, z) :: zip3 xs' ys' zs'
  | _, _, _ => []
  end.

(** The loop of lines 153-159 over
    [zip(kpis.items(), kpi_colors, kpi_cols * 2)]. *)
Definition kpi_boxes (items : list (string * string)) : list KpiBox :=
  map (fun t : (string * string) * string * nat =>
         let '(item, color, col) := t in
         {| box_column := col; box_color := color;
            box_label := fst item; box_value := snd item |})
      (zip3 items kpi_colors (kpi_cols ++ kpi_cols)).

(** ** The report (source lines 113-128) *)

(** What the function asks of the canvas.  [ShowPage] (a page break) is an
    operation of the canvas that the function never asks for. *)
Inductive canvas_op : Type :=
| SetFont (name : string) (size : Z)
| DrawString (x y : Z) (text : string)
| ShowPage
| Save.

(** The loop of lines 123-125, from the vertical position [y]. *)
Fixpoint draw_items (y : Z) (items : list (string * string)) : list canvas_op :=
  match items with
  | [] => []
  | (label, value) :: rest =>
      DrawString 50 y (label ++ ": " ++ value) :: draw_items (y - 20) rest
  end.

(** [generate_pdf_report]: the operations on the canvas, in order.  The
    page height (the second component of [letter]) is a parameter, in
    points. *)
Definition generate_pdf_report (height : Z) (kpis : list (string * string)) : list canvas_op :=
  [ SetFont "Helvetica-Bold" 16;
    DrawString 50 (height - 40) "Reinsurance Loss Portfolio Report";
    SetFont "Helvetica" 12 ]
  ++ draw_items (height - 80) kpis
  ++ [ Save ].

(** * Vocabulary of the statements *)

(** The membership condition of the filter engine, as a proposition. *)
Definition selected (sel : FilterSelection) (r : PolicyRecord) : Prop :=
  In (Region r) (region_filter sel)
  /\ In (Year r) (year_filter sel)
  /\ In (Policy_Type r) (policy_filter sel).

(** Row by row: a selected row is kept, any other row is dropped. *)
Inductive selects (sel : FilterSelection) : DataFrame -> DataFrame -> Prop :=
| selects_nil : selects sel [] []
| selects_keep r d f :
    selected sel r -> selects sel d f -> selects sel (r :: d) (r :: f)
| selects_drop r d f :
    ~ selected sel r -> selects sel d f -> selects sel (r :: d) f.

(** [f] is [d] with some rows removed: order and contents of the others
    are those of [d]. *)
Inductive subsequence {A : Type} : list A -> list A -> Prop :=
| sub_nil : subsequence [] []
| sub_take x f d : subsequence f d -> subsequence (x :: f) (x :: d)
| sub_skip x f d : subsequence f d -> subsequence f (x :: d).

(** The rows of the group [k] of a grouping: those whose key is [k]. *)
Definition group_rows (key : PolicyRecord -> option label) (k : label) (fd : DataFrame) : DataFrame :=
  filter (fun r => match key r with
                   | Some k' => label_eqb k' k
                   | None => false
                   end) fd.

(** A table lists its keys in strictly increasing order. *)
Inductive keys_increasing {V : Type} : list (label * V) -> Prop :=
| increasing_nil : keys_increasing []
| increasing_one kv : keys_increasing [kv]
| increasing_cons kv kv' t :
    label_compare (fst kv) (fst kv') = Lt ->
    keys_increasing (kv' :: t) -> keys_increasing (kv :: kv' :: t).

(** The keys of the rows of a data frame that have one, in row order. *)
Definition present_keys (key : PolicyRecord -> option label) (fd : DataFrame) : list label :=
  flat_map (fun r => match key r with
                     | Some k => [k]
                     | None => []
                     end) fd.

(** No row has a blank cell in the grouping column. *)
Definition no_blank_key (d : dimension) (fd : DataFrame) : Prop :=
  Forall (fun r => group_key d r <> None) fd.

(** A measure column of a data frame holds integers only. *)
Definition integer_column (col : PolicyRecord -> number) (fd : DataFrame) : Prop :=
  forallb (fun r => is_int64 (col r)) fd = true.

(** The sum of the integers of a column, and of their magnitudes, as
    unbounded integers. *)
Definition int_total (cells : list number) : Z :=
  fold_right Z.add 0%Z (map int_value cells).

Definition magnitude (cells : list number) : Z :=
  fold_right Z.add 0%Z (map (fun x => Z.abs (int_value x)) cells).

(** The sum of two int64 scalars, with their wrap-around. *)
Definition int_add (a b : number) : number :=
  Int64 (wrap64 (int_value a + int_value b)).

(** A scalar that is a finite number. *)
Definition number_is_finite (x : number) : bool :=
  match x with
  | Int64 _ => true
  | Float64 (S754_zero _) | Float64 (S754_finite _ _ _) => true
  | Float64 _ => false
  end.

(** The sum of floats from left to right, starting from 0: an instance of
    the library's summation for the examples. *)
Definition sequential_sum (fs : list float) : float :=
  fold_left (SFadd prec emax) fs (S754_zero false).

(** The two-row data frame of the scenario of the specification. *)
Definition scenario : DataFrame :=
  [ {| Region := Some "A"; Loss_Amount := Int64 100; Policy_Type := Some "X";
       Year := Some (YearInt 2020); Claim_Count := Int64 2;
       Risk_Category := Some "Low"; Premium_Collected := Int64 200;
       Other_Cells := [] |};
    {| Region := Some "B"; Loss_Amount := Int64 50; Policy_Type := Some "Y";
       Year := Some (YearInt 2021); Claim_Count := Int64 0;
       Risk_Category := Some "High"; Premium_Collected := Int64 0;
       Other_Cells := [] |} ].



(** The selection of one region, the other two filters left at their
    defaults. *)
Definition only_region (d : DataFrame) (region : string) : FilterSelection :=
  {| region_filter := [Some region];
     year_filter := year_filter (default_selection d);
     policy_filter := policy_filter (default_selection d) |}.

(** The sign of a float that is a number: set for the negative ones. *)
Definition sign_bit (x : float) : bool :=
  match x with
  | S754_zero s | S754_infinity s | S754_finite s _ _ => s
  | S754_nan => false
  end.

(** The three thresholds of [format_dollars_short], as floats. *)
Definition billion : float := float_of_Z 1000000000.
Definition million : float := float_of_Z 1000000.
Definition thousand : float := float_of_Z 1000.

(** The number written by a list of decimal digits. *)
Definition digit_value (c : ascii) : Z := (Z.of_N (N_of_ascii c) - 48)%Z.

Definition number_of_digits (ds : list ascii) : Z :=
  fold_left (fun a c => (10 * a + digit_value c)%Z) ds 0%Z.

(** The magnitude of a float in units of [10^-ndigits], rounded to an
    integer as the presentation type ['f'] rounds it. *)
Definition rounded_units (ndigits : nat) (x : float) : Z :=
  match x with
  | S754_finite _ m e => scaled_magnitude ndigits m e
  | _ => 0%Z
  end.

(** A float that is a finite number. *)
Definition is_finite (x : float) : bool :=
  match x with
  | S754_zero _ | S754_finite _ _ _ => true
  | _ => false
  end.

(** Two lists of values with the same members, whatever their order and
    repetitions. *)
Definition same_members {A : Type} (l1 l2 : list A) : Prop :=
  forall x, In x l1 <-> In x l2.

(** Every value allowed by [s1] is allowed by [s2]. *)
Definition narrower (s1 s2 : FilterSelection) : Prop :=
  incl (region_filter s1) (region_filter s2)
  /\ incl (year_filter s1) (year_filter s2)
  /\ incl (policy_filter s1) (policy_filter s2).

(** The text expected for an integer amount [z] below 1000 in magnitude:
    the dollar sign, a minus sign for a negative amount, the digits. *)
Definition plain_integer_text (z : Z) : string :=
  "$" ++ sign_string (z <? 0)%Z ++ string_of_list_ascii (digits (Z.abs z)).

(** The integers from [lo] on, [n] of them. *)
Definition Z_range (lo : Z) (n : nat) : list Z :=
  map (fun i => (lo + Z.of_nat i)%Z) (seq 0 n).

(** A text without its thousands separators. *)
Definition remove_commas (cs : list ascii) : list ascii :=
  filter (fun c => negb (Ascii.eqb c ",")) cs.

(** The first upload of a series that the script accepts: a file that was
    read and has the required columns. *)
Fixpoint first_accepted (uploads : list (option read_result)) : option RawTable :=
  match uploads with
  | [] => None
  | Some (ReadOk t) :: rest =>
      if has_required_columns t then Some t else first_accepted rest
  | _ :: rest => first_accepted rest
  end.

(** The factor of the percentage format, as a float. *)
Definition hundred : float := float_of_Z 100.

(** The key figures of the scenario filtered on region A. *)
Definition scenario_kpis : list (string * string) :=
  kpis (float_of_Z 200) (float_of_Z 100)
       (float_div (float_of_Z 1) (float_of_Z 2)) (float_of_Z 50)
       (float_of_Z 100) (float_div (float_of_Z 1) (float_of_Z 2)).

(** * Properties *)

(** ** Equality tests and membership *)

Lemma year_eqb_eq (a b : year_value) : year_eqb a b = true <-> a = b.
Proof.
  destruct a as [x|s], b as [y|t]; simpl; split; intro H;
    try discriminate; try (inversion H; subst).
  - apply Z.eqb_eq in H. now subst.
  - apply Z.eqb_refl.
  - apply String.eqb_eq in H. now subst.
  - apply String.eqb_refl.
Qed.

Lemma blank_eqb_eq {A : Type} (eqb : A -> A -> bool) :
  (forall a b, eqb a b = true <-> a = b) ->
  forall a b : blank_or A, blank_eqb eqb a b = true <-> a = b.
Proof.
  intros H [x|] [y|]; simpl; split; intro E; try discriminate;
    try reflexivity.
  - apply H in E. now subst.
  - inversion E; subst. now apply H.
Qed.

Lemma text_eqb_eq (a b : blank_or string) : text_eqb a b = true <-> a = b.
Proof. apply blank_eqb_eq, String.eqb_eq. Qed.

Lemma year_cell_eqb_eq (a b : blank_or year_value) :
  year_cell_eqb a b = true <-> a = b.
Proof. apply blank_eqb_eq, year_eqb_eq. Qed.

Section Membership.
Context {A : Type} (eqb : A -> A -> bool).
Hypothesis eqb_eq : forall a b, eqb a b = true <-> a = b.

Lemma isin_In (x : A) (values : list A) : isin eqb x values = true <-> In x values.
Proof.
  unfold isin. rewrite existsb_exists. split.
  - intros [y [Hy Heq]]. apply eqb_eq in Heq. now subst.
  - intro H. exists x. split; [assumption | now apply eqb_eq].
Qed.

Lemma isin_nil (x : A) : isin eqb x [] = false.
Proof. reflexivity. Qed.

Lemma In_unique (x : A) (s : list A) : In x (unique eqb s) <-> In x s.
Proof.
  induction s as [|y rest IH]; simpl; [tauto|].
  rewrite filter_In, IH. split.
  - intros [H | [H _]]; auto.
  - intros [H | H]; [now left|].
    destruct (eqb y x) eqn:E.
    + left. now apply eqb_eq.
    + right. split; [assumption | reflexivity].
Qed.

Lemma NoDup_filter (p : A -> bool) (s : list A) : NoDup s -> NoDup (filter p s).
Proof.
  induction 1 as [|y rest Hy Hnd IH]; simpl; [constructor|].
  destruct (p y); [|assumption].
  constructor; [|assumption].
  rewrite filter_In. tauto.
Qed.

Lemma NoDup_unique (s : list A) : NoDup (unique eqb s).
Proof.
  induction s as [|y rest IH]; simpl; constructor.
  - rewrite filter_In. intros [_ H].
    assert (E : eqb y y = true) by now apply eqb_eq.
    rewrite E in H. discriminate.
  - now apply NoDup_filter.
Qed.
End Membership.

(** ** Filter engine *)

Lemma mask_selected (sel : FilterSelection) (r : PolicyRecord) :
  mask sel r = true <-> selected sel r.
Proof.
  unfold mask, selected.
  rewrite !andb_true_iff, !(isin_In text_eqb text_eqb_eq),
    (isin_In year_cell_eqb year_cell_eqb_eq).
  tauto.
Qed.

Lemma filtered_df_selects (d : DataFrame) (sel : FilterSelection) :
  selects sel d (filtered_df d sel).
Proof.
  unfold filtered_df.
  induction d as [|r d IH]; simpl; [constructor|].
  destruct (mask sel r) eqn:E.
  - apply selects_keep; [now apply mask_selected | assumption].
  - apply selects_drop; [|assumption].
    intro H. apply mask_selected in H. congruence.
Qed.

Lemma selects_functional (sel : FilterSelection) (d f1 f2 : DataFrame) :
  selects sel d f1 -> selects sel d f2 -> f1 = f2.
Proof.
  intro H1. revert f2.
  induction H1 as [|r d f Hr _ IH|r d f Hr _ IH]; intros f2 H2;
    inversion H2; subst; try contradiction; auto.
  f_equal. now apply IH.
Qed.

Lemma selects_subsequence (sel : FilterSelection) (d f : DataFrame) :
  selects sel d f -> subsequence f d.
Proof. induction 1; constructor; assumption. Qed.

Lemma filtered_df_In (d : DataFrame) (sel : FilterSelection) (r : PolicyRecord) :
  In r (filtered_df d sel) <-> In r d /\ selected sel r.
Proof. unfold filtered_df. now rewrite filter_In, mask_selected. Qed.

Lemma filter_keeps_all {A : Type} (p : A -> bool) (l : list A) :
  (forall x, In x l -> p x = true) -> filter p l = l.
Proof.
  induction l as [|x l IH]; intro H; simpl; [reflexivity|].
  rewrite (H x (or_introl eq_refl)). f_equal.
  apply IH. intros y Hy. apply H. now right.
Qed.

Lemma default_selection_selects_all (d : DataFrame) (r : PolicyRecord) :
  In r d -> selected (default_selection d) r.
Proof.
  intro H. unfold selected, default_selection; simpl.
  rewrite !(In_unique text_eqb text_eqb_eq), (In_unique year_cell_eqb year_cell_eqb_eq).
  repeat split; now apply in_map.
Qed.

(** C3.  The filter engine returns exactly the rows of the data frame whose
    Region, Year and Policy Type each belong to the corresponding
    selection: row by row a selected row is kept and any other is dropped.
    So the result is included in the data frame, every row of it passes
    the three membership tests, and an empty selection for any of the
    three columns gives the empty result. *)
Theorem filter_engine_exact (d : DataFrame) (sel : FilterSelection) :
  selects sel d (filtered_df d sel)
  /\ (forall r, In r (filtered_df d sel) <-> In r d /\ selected sel r)
  /\ incl (filtered_df d sel) d
  /\ Forall (selected sel) (filtered_df d sel)
  /\ (region_filter sel = [] \/ year_filter sel = [] \/ policy_filter sel = []
      -> filtered_df d sel = []).
Proof.
  split; [apply filtered_df_selects|].
  split; [intro r; apply filtered_df_In|].
  split; [intros r Hr; now apply filtered_df_In in Hr|].
  split; [apply Forall_forall; intros r Hr; now apply filtered_df_In in Hr|].
  intro Hempty.
  destruct (filtered_df d sel) as [|r f] eqn:E; [reflexivity|].
  assert (Hr : In r (filtered_df d sel)) by (rewrite E; now left).
  apply filtered_df_In in Hr. destruct Hr as [_ [H1 [H2 H3]]].
  destruct Hempty as [H | [H | H]]; rewrite H in *; contradiction.
Qed.

(** C4.  Filtering with the default selection (for each of the three
    columns, the distinct values present in the data frame) returns the
    data frame itself, every row unchanged. *)
Theorem default_selection_is_identity (d : DataFrame) :
  filtered_df d (default_selection d) = d.
Proof.
  unfold filtered_df. apply filter_keeps_all.
  intros r Hr. apply mask_selected. now apply default_selection_selects_all.
Qed.

(** C5.  Filtering is idempotent: filtering an already filtered data frame
    with the same selection gives the same rows again. *)
Theorem filtering_is_idempotent (d : DataFrame) (sel : FilterSelection) :
  filtered_df (filtered_df d sel) sel = filtered_df d sel.
Proof.
  unfold filtered_df. apply filter_keeps_all.
  intros r Hr. apply filter_In in Hr. tauto.
Qed.

(** C10.  The filter engine keeps the order and the contents of the rows:
    the result is a subsequence of the data frame, each surviving row being
    the row of the data frame itself (all its cells), and the rows kept are
    determined by the data frame and the selection alone, so filtering the
    same input again gives the same ordered result. *)
Theorem filter_preserves_order_and_rows (d : DataFrame) (sel : FilterSelection) :
  subsequence (filtered_df d sel) d
  /\ (forall f, selects sel d f -> f = filtered_df d sel).
Proof.
  split.
  - apply (selects_subsequence sel), filtered_df_selects.
  - intros f Hf. apply (selects_functional sel d); [assumption|].
    apply filtered_df_selects.
Qed.

(** ** Metrics engine *)

(** A number that counts as false is a zero: its float is a zero. *)
Lemma truthy_false_zero (b : number) :
  truthy b = false -> exists s, to_float b = S754_zero s.
Proof.
  destruct b as [z|f]; simpl; intro H.
  - apply negb_false_iff, Z.eqb_eq in H. subst z. now exists false.
  - apply negb_false_iff in H. unfold SFeqb in H.
    destruct f as [s|[|]| |[|] m e]; simpl in H; try discriminate.
    now exists s.
Qed.

(** What the guards avoid: a division by a zero is never a finite number. *)
Lemma division_by_zero_not_finite (a b : number) :
  truthy b = false -> number_is_finite (truediv a b) = false.
Proof.
  intro H. destruct (truthy_false_zero b H) as [s Hb].
  unfold truediv, float_div. rewrite Hb.
  destruct (to_float a); reflexivity.
Qed.



(** ** Aggregation engine *)

Lemma label_compare_eq (a b : label) : label_compare a b = Eq <-> a = b.
Proof.
  destruct a as [x|s], b as [y|t]; simpl; split; intro H;
    try discriminate; try (inversion H; subst).
  - apply Z.compare_eq_iff in H. now subst.
  - apply Z.compare_refl.
  - apply String_as_OT.cmp_eq in H. now subst.
  - now apply String_as_OT.cmp_eq.
Qed.

Lemma label_compare_antisym (a b : label) :
  label_compare a b = CompOpp (label_compare b a).
Proof.
  destruct a as [x|s], b as [y|t]; simpl; try reflexivity.
  - apply Z.compare_antisym.
  - apply String.compare_antisym.
Qed.

Lemma label_compare_trans (a b c : label) :
  label_compare a b = Lt -> label_compare b c = Lt -> label_compare a c = Lt.
Proof.
  destruct a as [x|s], b as [y|t], c as [z|u]; simpl; intros H1 H2;
    try discriminate; try reflexivity.
  - rewrite Z.compare_lt_iff in *. lia.
  - apply String_as_OT.cmp_lt. apply String_as_OT.cmp_lt in H1, H2.
    eapply String_as_OT.lt_trans; eassumption.
Qed.

Lemma label_eqb_eq (a b : label) : label_eqb a b = true <-> a = b.
Proof.
  unfold label_eqb. rewrite <- label_compare_eq.
  destruct (label_compare a b); split; congruence.
Qed.

Lemma label_eqb_Lt (a b : label) : label_compare a b = Lt -> label_eqb a b = false.
Proof. unfold label_eqb. now intros ->. Qed.

Lemma label_eqb_Gt (a b : label) : label_compare a b = Gt -> label_eqb a b = false.
Proof. unfold label_eqb. now intros ->. Qed.

Lemma label_compare_refl (k : label) : label_compare k k = Eq.
Proof. now apply label_compare_eq. Qed.

Lemma label_compare_irrefl (k : label) : label_compare k k <> Lt.
Proof. rewrite label_compare_refl. discriminate. Qed.

Local Open Scope Z_scope.

(** *** Tables with increasing keys *)

Section Tables.
Context {V : Type}.

Lemma increasing_above (kv : label * V) (t : list (label * V)) :
  keys_increasing (kv :: t) ->
  Forall (fun kv' => label_compare (fst kv) (fst kv') = Lt) t.
Proof.
  revert kv. induction t as [|kv' t IH]; intros kv H; [constructor|].
  inversion H as [| |? ? ? Hlt Hinc]; subst.
  constructor; [assumption|].
  eapply Forall_impl; [|apply (IH kv' Hinc)].
  intros kv'' H'. simpl in H'. eapply label_compare_trans; eassumption.
Qed.

Lemma increasing_tail (kv : label * V) (t : list (label * V)) :
  keys_increasing (kv :: t) -> keys_increasing t.
Proof. inversion 1; subst; [constructor | assumption]. Qed.

Lemma increasing_same_key (k : label) (v v' : V) (t : list (label * V)) :
  keys_increasing ((k, v) :: t) -> keys_increasing ((k, v') :: t).
Proof. inversion 1; subst; constructor; assumption. Qed.

Lemma accumulate_increasing (add : V -> V -> V) (k : label) (v : V)
    (t : list (label * V)) :
  keys_increasing t -> keys_increasing (accumulate add k v t).
Proof.
  induction t as [|[k' v'] t IH]; intro H; simpl; [constructor|].
  destruct (label_compare k k') eqn:E.
  - now apply increasing_same_key with (v := v').
  - now constructor.
  - assert (Hk : label_compare k' k = Lt)
      by (rewrite label_compare_antisym, E; reflexivity).
    specialize (IH (increasing_tail _ _ H)).
    destruct t as [|[k'' v''] t]; simpl in *.
    + now repeat constructor.
    + destruct (label_compare k k''); constructor; simpl;
        try assumption; now inversion H.
Qed.

Lemma accumulate_keys (add : V -> V -> V) (k k0 : label) (v : V)
    (t : list (label * V)) :
  In k (map fst (accumulate add k0 v t)) <-> k = k0 \/ In k (map fst t).
Proof.
  induction t as [|[k' v'] t IH]; simpl; [intuition congruence|].
  destruct (label_compare k0 k') eqn:E; simpl.
  - apply label_compare_eq in E. subst k'. intuition congruence.
  - intuition congruence.
  - rewrite IH. intuition congruence.
Qed.

Lemma increasing_NoDup (t : list (label * V)) :
  keys_increasing t -> NoDup (map fst t).
Proof.
  induction t as [|kv t IH]; intro H; simpl; constructor.
  - intro Hin. apply in_map_iff in Hin. destruct Hin as [kv' [Hk Hin]].
    pose proof (increasing_above kv t H) as Habove.
    rewrite Forall_forall in Habove. specialize (Habove kv' Hin).
    rewrite Hk, label_compare_refl in Habove. discriminate.
  - apply IH. now apply increasing_tail in H.
Qed.

Lemma increasing_head_unique (kv1 kv2 : label * V) (t1 t2 : list (label * V)) :
  keys_increasing (kv1 :: t1) -> keys_increasing (kv2 :: t2) ->
  In kv1 (kv2 :: t2) -> In kv2 (kv1 :: t1) -> kv1 = kv2.
Proof.
  intros H1 H2 Hin1 Hin2.
  pose proof (increasing_above _ _ H1) as A1.
  pose proof (increasing_above _ _ H2) as A2.
  rewrite Forall_forall in A1, A2.
  destruct Hin1 as [E|Hin1]; [now symmetry|].
  destruct Hin2 as [E|Hin2]; [assumption|].
  exfalso. apply (label_compare_irrefl (fst kv1)).
  eapply label_compare_trans; [apply (A1 _ Hin2) | apply (A2 _ Hin1)].
Qed.

(** Two tables with increasing keys and the same rows are the same list. *)
Lemma increasing_ext (t1 t2 : list (label * V)) :
  keys_increasing t1 -> keys_increasing t2 ->
  (forall kv, In kv t1 <-> In kv t2) -> t1 = t2.
Proof.
  revert t2. induction t1 as [|kv1 t1 IH]; intros [|kv2 t2] H1 H2 Hin.
  - reflexivity.
  - exfalso. apply (proj2 (Hin kv2)). now left.
  - exfalso. apply (proj1 (Hin kv1)). now left.
  - assert (E : kv1 = kv2).
    { apply (increasing_head_unique kv1 kv2 t1 t2 H1 H2).
      - apply Hin. now left.
      - apply Hin. now left. }
    subst kv2. f_equal.
    pose proof (increasing_above _ _ H1) as A1.
    pose proof (increasing_above _ _ H2) as A2.
    rewrite Forall_forall in A1, A2.
    apply IH; try (eapply increasing_tail; eassumption).
    intro kv. split; intro Hkv.
    + destruct (proj1 (Hin kv) (or_intror Hkv)) as [E|Hin2]; [|assumption].
      subst kv. exfalso. apply (label_compare_irrefl (fst kv1)). now apply A1.
    + destruct (proj2 (Hin kv) (or_intror Hkv)) as [E|Hin1]; [|assumption].
      subst kv. exfalso. apply (label_compare_irrefl (fst kv1)). now apply A2.
Qed.

(** A row of a table with increasing keys is the only one of its key. *)
Lemma increasing_functional (t : list (label * V)) (k : label) (v v' : V) :
  keys_increasing t -> In (k, v) t -> In (k, v') t -> v = v'.
Proof.
  induction t as [|kv t IH]; intros H H1 H2; [contradiction|].
  pose proof (increasing_above _ _ H) as A. rewrite Forall_forall in A.
  destruct H1 as [E1|H1], H2 as [E2|H2].
  - congruence.
  - exfalso. subst kv. apply (label_compare_irrefl k). apply (A _ H2).
  - exfalso. subst kv. apply (label_compare_irrefl k). apply (A _ H1).
  - apply IH; try assumption. eapply increasing_tail; eassumption.
Qed.
End Tables.

Lemma map_keys_increasing {V W : Type} (g : V -> W) (t : list (label * V)) :
  keys_increasing t ->
  keys_increasing (map (fun kv => (fst kv, g (snd kv))) t).
Proof.
  induction 1 as [|kv|kv kv' t Hlt Hinc IH]; simpl; constructor; assumption.
Qed.

(** *** The groups of a data frame *)

Section Groups.
Context {V : Type}.
Variable key : PolicyRecord -> option label.
Variable val : PolicyRecord -> V.

(** One step of [group_cells]. *)
Let step (t : list (label * list V)) (r : PolicyRecord) : list (label * list V) :=
  match key r with
  | Some k => accumulate (@app V) k [val r] t
  | None => t
  end.

(** The cells gathered under the key [k] in a table. *)
Let cells_at (k : label) (t : list (label * list V)) : list V :=
  flat_map snd (filter (fun kc => label_eqb (fst kc) k) t).

Lemma step_increasing (t : list (label * list V)) (r : PolicyRecord) :
  keys_increasing t -> keys_increasing (step t r).
Proof.
  intro H. unfold step. destruct (key r); [|assumption].
  now apply accumulate_increasing.
Qed.

Lemma fold_step_increasing (fd : DataFrame) (t : list (label * list V)) :
  keys_increasing t -> keys_increasing (fold_left step fd t).
Proof.
  revert t. induction fd as [|r fd IH]; intros t H; simpl; [assumption|].
  apply IH. now apply step_increasing.
Qed.

Lemma group_cells_increasing (fd : DataFrame) :
  keys_increasing (group_cells key val fd).
Proof. apply (fold_step_increasing fd []). constructor. Qed.

Lemma cells_at_cons (k k' : label) (c' : list V) (t : list (label * list V)) :
  cells_at k ((k', c') :: t)
  = (if label_eqb k' k then c' else []) ++ cells_at k t.
Proof.
  unfold cells_at. cbn [filter fst].
  destruct (label_eqb k' k); reflexivity.
Qed.

Lemma cells_at_above (k : label) (t : list (label * list V)) :
  Forall (fun kc => label_compare k (fst kc) = Lt) t -> cells_at k t = [].
Proof.
  induction 1 as [|[k' c'] t Hlt _ IH]; [reflexivity|].
  rewrite cells_at_cons, IH.
  assert (E : label_eqb k' k = false).
  { apply label_eqb_Gt. rewrite label_compare_antisym. simpl in Hlt.
    rewrite Hlt. reflexivity. }
  now rewrite E.
Qed.

Lemma accumulate_cells_at (k0 k : label) (v : V) (t : list (label * list V)) :
  keys_increasing t ->
  cells_at k (accumulate (@app V) k0 [v] t)
  = cells_at k t ++ (if label_eqb k0 k then [v] else []).
Proof.
  induction t as [|[k' c'] t IH]; intro H.
  - cbn [accumulate]. rewrite cells_at_cons.
    destruct (label_eqb k0 k); reflexivity.
  - pose proof (increasing_above _ _ H) as A. simpl in A.
    cbn [accumulate]. destruct (label_compare k0 k') eqn:E.
    + apply label_compare_eq in E. subst k'.
      rewrite !cells_at_cons.
      destruct (label_eqb k0 k) eqn:Ek.
      * apply label_eqb_eq in Ek. subst k.
        rewrite (cells_at_above k0 t A), !app_nil_r. reflexivity.
      * now rewrite app_nil_r.
    + rewrite cells_at_cons.
      destruct (label_eqb k0 k) eqn:Ek.
      * apply label_eqb_eq in Ek. subst k.
        assert (A0 : Forall (fun kc => label_compare k0 (fst kc) = Lt)
                            ((k', c') :: t)).
        { constructor; [exact E|].
          eapply Forall_impl; [|exact A].
          intros kc Hkc. eapply label_compare_trans; eassumption. }
        now rewrite (cells_at_above k0 _ A0).
      * now rewrite app_nil_r.
    + rewrite !cells_at_cons, (IH (increasing_tail _ _ H)).
      now rewrite app_assoc.
Qed.

Lemma fold_step_cells_at (k : label) (fd : DataFrame) (t : list (label * list V)) :
  keys_increasing t ->
  cells_at k (fold_left step fd t)
  = cells_at k t ++ map val (group_rows key k fd).
Proof.
  revert t. induction fd as [|r fd IH]; intros t H; simpl.
  - now rewrite app_nil_r.
  - rewrite IH by now apply step_increasing.
    unfold step. destruct (key r) as [k0|]; [|reflexivity].
    rewrite accumulate_cells_at by assumption.
    rewrite <- app_assoc. destruct (label_eqb k0 k); reflexivity.
Qed.

Lemma increasing_cells_at (k : label) (cells : list V) (t : list (label * list V)) :
  keys_increasing t -> In (k, cells) t -> cells_at k t = cells.
Proof.
  induction t as [|[k' c'] t IH]; intros Hinc Hin; [contradiction|].
  pose proof (increasing_above _ _ Hinc) as A. simpl in A.
  rewrite cells_at_cons.
  destruct Hin as [Heq | Hin].
  - inversion Heq; subst k' c'.
    rewrite (proj2 (label_eqb_eq k k) eq_refl), (cells_at_above k t A).
    apply app_nil_r.
  - assert (Hlt : label_compare k' k = Lt).
    { rewrite Forall_forall in A. apply (A (k, cells) Hin). }
    rewrite (label_eqb_Lt _ _ Hlt).
    apply (IH (increasing_tail _ _ Hinc) Hin).
Qed.

(** A group holds the cells of the rows of its key, in row order. *)
Lemma group_cells_entry (k : label) (cells : list V) (fd : DataFrame) :
  In (k, cells) (group_cells key val fd) ->
  cells = map val (group_rows key k fd).
Proof.
  intro Hin.
  rewrite <- (increasing_cells_at k cells _ (group_cells_increasing fd) Hin).
  apply (fold_step_cells_at k fd []). constructor.
Qed.

Lemma fold_step_keys (k : label) (fd : DataFrame) (t : list (label * list V)) :
  In k (map fst (fold_left step fd t))
  <-> In k (map fst t) \/ In k (present_keys key fd).
Proof.
  revert t. induction fd as [|r fd IH]; intro t; simpl; [tauto|].
  rewrite IH. unfold step. destruct (key r) as [k0|]; simpl.
  - rewrite accumulate_keys. intuition congruence.
  - tauto.
Qed.

(** There is a group for a key exactly when some row has it. *)
Lemma group_cells_keys (k : label) (fd : DataFrame) :
  In k (map fst (group_cells key val fd)) <-> In k (present_keys key fd).
Proof.
  unfold group_cells. fold step. rewrite fold_step_keys. simpl. tauto.
Qed.
End Groups.

Lemma present_keys_In (key : PolicyRecord -> option label) (fd : DataFrame)
    (k : label) :
  In k (present_keys key fd) <-> exists r, In r fd /\ key r = Some k.
Proof.
  unfold present_keys. rewrite in_flat_map. split.
  - intros [r [Hr Hk]]. exists r. split; [assumption|].
    destruct (key r) as [k'|]; [|contradiction].
    destruct Hk as [Hk|[]]. now subst.
  - intros [r [Hr Hk]]. exists r. split; [assumption|].
    rewrite Hk. now left.
Qed.

(** *** Integer columns *)

Lemma wrap64_small (z : Z) : - 2 ^ 63 <= z < 2 ^ 63 -> wrap64 z = z.
Proof.
  intro H. unfold wrap64. rewrite Z.mod_small; lia.
Qed.

Lemma column_sum_int (float_sum : list float -> float) (cells : list number) :
  forallb is_int64 cells = true ->
  column_sum float_sum cells = Int64 (wrap64 (int_total cells)).
Proof. intro H. unfold column_sum. now rewrite H. Qed.

Lemma magnitude_nonneg (cells : list number) : 0 <= magnitude cells.
Proof.
  unfold magnitude. induction cells as [|x cells IH]; simpl; lia.
Qed.

Lemma int_total_magnitude (cells : list number) :
  Z.abs (int_total cells) <= magnitude cells.
Proof.
  unfold int_total, magnitude.
  induction cells as [|x cells IH]; simpl; lia.
Qed.

Lemma magnitude_filter {A : Type} (f : A -> number) (p : A -> bool) (l : list A) :
  magnitude (map f (filter p l)) <= magnitude (map f l).
Proof.
  unfold magnitude. induction l as [|x l IH]; simpl; [lia|].
  destruct (p x); simpl; lia.
Qed.

Lemma forallb_mapped {A B : Type} (q : B -> bool) (f : A -> B) (l : list A) :
  forallb q (map f l) = forallb (fun x => q (f x)) l.
Proof.
  induction l as [|x l IH]; simpl; [reflexivity|]. now rewrite IH.
Qed.

Lemma forallb_filter {A : Type} (q p : A -> bool) (l : list A) :
  forallb q l = true -> forallb q (filter p l) = true.
Proof.
  rewrite !forallb_forall. intros H x Hx. apply filter_In in Hx.
  apply H. tauto.
Qed.

(** The sum of a column of integers of total magnitude at most 2^53 is
    their sum as unbounded integers. *)
Lemma column_sum_exact (float_sum : list float -> float) (cells : list number) :
  forallb is_int64 cells = true -> magnitude cells <= 2 ^ 53 ->
  column_sum float_sum cells = Int64 (int_total cells).
Proof.
  intros Hint Hmag. rewrite column_sum_int by assumption.
  pose proof (int_total_magnitude cells).
  rewrite wrap64_small; [reflexivity|].
  assert (2 ^ 53 < 2 ^ 63) by reflexivity. lia.
Qed.

Section GroupedIntegers.
Context {V : Type}.
Variable key : PolicyRecord -> option label.
Variable val : PolicyRecord -> V.
Variable proj : V -> number.

(** The integers gathered in a table, added up. *)
Let table_total (t : list (label * list V)) : Z :=
  fold_right Z.add 0 (map (fun kc => int_total (map proj (snd kc))) t).

Lemma int_total_app (c1 c2 : list number) :
  int_total (c1 ++ c2) = int_total c1 + int_total c2.
Proof.
  unfold int_total. induction c1 as [|x c1 IH]; simpl; [reflexivity|].
  rewrite IH. lia.
Qed.

Lemma accumulate_table_total (k : label) (v : V) (t : list (label * list V)) :
  table_total (accumulate (@app V) k [v] t)
  = table_total t + int_value (proj v).
Proof.
  unfold table_total.
  induction t as [|[k' c'] t IH]; simpl.
  - unfold int_total. simpl. lia.
  - destruct (label_compare k k'); simpl.
    + rewrite map_app, int_total_app. unfold int_total. simpl. lia.
    + unfold int_total. simpl. lia.
    + rewrite IH. lia.
Qed.

Lemma group_cells_table_total (fd : DataFrame) :
  Forall (fun r => key r <> None) fd ->
  table_total (group_cells key val fd)
  = int_total (map (fun r => proj (val r)) fd).
Proof.
  intro Hkeys. unfold group_cells.
  assert (G : forall t,
    table_total
      (fold_left (fun t r => match key r with
                             | Some k => accumulate (@app V) k [val r] t
                             | None => t
                             end) fd t)
    = table_total t + int_total (map (fun r => proj (val r)) fd)).
  { induction Hkeys as [|r fd Hr _ IH]; intro t; simpl.
    - unfold int_total. simpl. lia.
    - rewrite IH. destruct (key r) as [k|]; [|congruence].
      rewrite accumulate_table_total. unfold int_total. simpl. lia. }
  rewrite G. unfold table_total. simpl. lia.
Qed.

Variable fd : DataFrame.
Hypothesis keys_present : Forall (fun r => key r <> None) fd.
Hypothesis integers : forallb is_int64 (map (fun r => proj (val r)) fd) = true.
Hypothesis bounded : magnitude (map (fun r => proj (val r)) fd) <= 2 ^ 53.

Lemma group_cell_exact (gsum : list float -> float) (kc : label * list V) :
  In kc (group_cells key val fd) ->
  column_sum gsum (map proj (snd kc)) = Int64 (int_total (map proj (snd kc))).
Proof.
  destruct kc as [k cells]. intro Hin. simpl.
  rewrite (group_cells_entry key val k cells fd Hin), map_map.
  apply column_sum_exact.
  - unfold group_rows. rewrite forallb_mapped in *.
    now apply forallb_filter.
  - etransitivity; [|exact bounded].
    apply (magnitude_filter (fun r => proj (val r))).
Qed.

End GroupedIntegers.

(** *** The totals of the tables *)




Lemma integer_column_cells (col : PolicyRecord -> number) (fd : DataFrame) :
  integer_column col fd -> forallb is_int64 (map col fd) = true.
Proof. unfold integer_column. intro H. now rewrite forallb_mapped. Qed.







(** ** Currency display *)

Local Open Scope Z_scope.

Lemma shr_1_nonneg (mrs : shr_record) : 0 <= shr_m mrs -> 0 <= shr_m (shr_1 mrs).
Proof.
  destruct mrs as [m r s]. simpl.
  destruct m as [|p|p]; simpl; try lia; destruct p; simpl; lia.
Qed.

Lemma iter_pos_invariant {A : Type} (P : A -> Prop) (f : A -> A) :
  (forall x, P x -> P (f x)) -> forall p x, P x -> P (iter_pos f p x).
Proof.
  intros Hf. induction p as [p IH|p IH|]; intros x Hx; simpl; auto.
Qed.

Lemma shr_nonneg (mrs : shr_record) (e n : Z) :
  0 <= shr_m mrs -> 0 <= shr_m (fst (shr mrs e n)).
Proof.
  intro H. unfold shr. destruct n; simpl; try assumption.
  apply (iter_pos_invariant (fun x => 0 <= shr_m x));
    [apply shr_1_nonneg | assumption].
Qed.

Lemma shr_record_of_loc_m (m : Z) (l : location) :
  shr_m (shr_record_of_loc m l) = m.
Proof. destruct l as [|[ | | ]]; reflexivity. Qed.

Lemma shr_fexp_nonneg (m e : Z) (l : location) :
  0 <= m -> 0 <= shr_m (fst (shr_fexp prec emax m e l)).
Proof.
  intro H. unfold shr_fexp. apply shr_nonneg. now rewrite shr_record_of_loc_m.
Qed.

Lemma round_nearest_even_nonneg (m : Z) (l : location) :
  0 <= m -> 0 <= round_nearest_even m l.
Proof.
  intro H. unfold round_nearest_even.
  destruct l as [|[ | | ]]; try lia. destruct (Z.even m); lia.
Qed.

(** Rounding to binary64 acts on the magnitude: the result is a number
    with the given sign. *)
Lemma binary_round_aux_sign (s : bool) (m e : Z) (l : location) :
  0 <= m ->
  binary_round_aux prec emax s m e l <> S754_nan
  /\ sign_bit (binary_round_aux prec emax s m e l) = s
  /\ binary_round_aux prec emax (negb s) m e l
     = SFopp (binary_round_aux prec emax s m e l).
Proof.
  intro H. unfold binary_round_aux.
  pose proof (shr_fexp_nonneg m e l H) as H1.
  destruct (shr_fexp prec emax m e l) as [mrs' e']. simpl in H1.
  pose proof (shr_fexp_nonneg _ e' loc_Exact
                (round_nearest_even_nonneg _ (loc_of_shr_record mrs') H1)) as H2.
  destruct (shr_fexp prec emax _ e' loc_Exact) as [mrs'' e'']. simpl in H2.
  destruct (shr_m mrs'') as [|p|p]; [| |lia].
  - repeat split. discriminate.
  - destruct (e'' <=? emax - prec); repeat split; discriminate.
Qed.

Lemma SFdiv_core_binary_nonneg (m1 m2 : positive) (e1 e2 : Z) :
  0 <= fst (fst (SFdiv_core_binary prec emax (Zpos m1) e1 (Zpos m2) e2)).
Proof.
  unfold SFdiv_core_binary.
  set (s := e1 - e2 - _).
  set (m' := match s with Z0 => Zpos m1 | Zpos _ => Z.shiftl (Zpos m1) s | Zneg _ => 0 end).
  assert (Hm : 0 <= m').
  { subst m'. destruct s; try lia. apply Z.shiftl_nonneg. lia. }
  pose proof (Z_div_mod m' (Zpos m2) eq_refl) as Hdiv.
  destruct (Z.div_eucl m' (Zpos m2)) as [q r]. simpl.
  destruct Hdiv as [Hq Hr]. nia.
Qed.

(** Division by a positive finite float keeps the sign of the dividend and
    commutes with negation. *)
Lemma float_div_sign (n : float) (mc : positive) (ec : Z) :
  n <> S754_nan ->
  float_div n (S754_finite false mc ec) <> S754_nan
  /\ sign_bit (float_div n (S754_finite false mc ec)) = sign_bit n
  /\ float_div (SFopp n) (S754_finite false mc ec)
     = SFopp (float_div n (S754_finite false mc ec)).
Proof.
  intro Hn. unfold float_div.
  destruct n as [s|s| |s m e]; simpl; try contradiction;
    rewrite ?xorb_false_r; try (repeat split; discriminate).
  pose proof (SFdiv_core_binary_nonneg m mc e ec) as H.
  destruct (SFdiv_core_binary prec emax (Zpos m) e (Zpos mc) ec) as [[mz ez] lz].
  simpl in H. apply binary_round_aux_sign. assumption.
Qed.

Lemma SFabs_opp (n : float) : SFabs (SFopp n) = SFabs n.
Proof. destruct n; reflexivity. Qed.

(** A negated number prints as a minus sign followed by the number. *)
Lemma format_fixed_opp (grouping : bool) (ndigits : nat) (x : float) :
  x <> S754_nan -> sign_bit x = false ->
  format_fixed grouping ndigits (SFopp x)
  = ("-" ++ format_fixed grouping ndigits x)%string.
Proof.
  intros Hx Hs. destruct x as [s|s| |s m e]; simpl in Hs; subst;
    try contradiction; reflexivity.
Qed.

Lemma billion_value : billion = S754_finite false 8388608000000000 (-23).
Proof. reflexivity. Qed.

Lemma million_value : million = S754_finite false 8589934592000000 (-33).
Proof. reflexivity. Qed.

Lemma thousand_value : thousand = S754_finite false 8796093022208000 (-43).
Proof. reflexivity. Qed.

(** The definition, with the thresholds named. *)
Lemma format_dollars_short_unfold (n : float) :
  format_dollars_short n
  = (if float_ge (SFabs n) billion then
       "$" ++ format_fixed false 1 (float_div n billion) ++ "B"
     else if float_ge (SFabs n) million then
       "$" ++ format_fixed false 1 (float_div n million) ++ "M"
     else if float_ge (SFabs n) thousand then
       "$" ++ format_fixed false 1 (float_div n thousand) ++ "K"
     else "$" ++ format_fixed true 0 n)%string.
Proof. reflexivity. Qed.

(** The text printed for a negated number, scaled and suffixed. *)
Lemma scaled_text_opp (n : float) (mc : positive) (ec : Z) (suffix : string) :
  n <> S754_nan -> sign_bit n = false ->
  ("$" ++ format_fixed false 1 (float_div (SFopp n) (S754_finite false mc ec))
       ++ suffix
   = "$-" ++ format_fixed false 1 (float_div n (S754_finite false mc ec))
          ++ suffix)%string.
Proof.
  intros Hn Hs.
  destruct (float_div_sign n mc ec Hn) as [Hnan [Hsign Hopp]].
  rewrite Hopp, format_fixed_opp by congruence.
  generalize (format_fixed false 1 (float_div n (S754_finite false mc ec))).
  intro body. reflexivity.
Qed.

Lemma format_dollars_short_sign (n : float) :
  n <> S754_nan -> sign_bit n = false ->
  exists body : string,
    format_dollars_short n = ("$" ++ body)%string
    /\ format_dollars_short (SFopp n) = ("$-" ++ body)%string.
Proof.
  intros Hn Hs.
  rewrite !format_dollars_short_unfold, SFabs_opp.
  rewrite billion_value, million_value, thousand_value.
  destruct (float_ge (SFabs n) _);
    [|destruct (float_ge (SFabs n) _);
      [|destruct (float_ge (SFabs n) _)]];
    eexists; (split; [reflexivity|]);
    try (now apply scaled_text_opp).
  now rewrite format_fixed_opp.
Qed.

Lemma format_dollars_short_prefix (n : float) :
  exists body : string, format_dollars_short n = ("$" ++ body)%string.
Proof.
  rewrite format_dollars_short_unfold.
  destruct (float_ge (SFabs n) billion);
    [|destruct (float_ge (SFabs n) million);
      [|destruct (float_ge (SFabs n) thousand)]];
    eexists; reflexivity.
Qed.

(** *** The decimal digits *)

Lemma digit_value_char (d : Z) : 0 <= d <= 9 -> digit_value (digit_char d) = d.
Proof.
  intro H. unfold digit_value, digit_char.
  rewrite N_ascii_embedding by lia. lia.
Qed.

Lemma digits_fuel_acc (fuel : nat) (z : Z) (acc : list ascii) :
  digits_fuel fuel z acc = digits_fuel fuel z [] ++ acc.
Proof.
  revert z acc. induction fuel as [|fuel IH]; intros z acc; simpl; [reflexivity|].
  destruct (z / 10 =? 0); [reflexivity|].
  rewrite IH, (IH _ [_]), <- app_assoc. reflexivity.
Qed.

Lemma number_of_digits_snoc (ds : list ascii) (c : ascii) :
  number_of_digits (ds ++ [c]) = 10 * number_of_digits ds + digit_value c.
Proof. unfold number_of_digits. now rewrite fold_left_app. Qed.

Lemma digits_fuel_value (fuel : nat) (z : Z) :
  0 <= z < 2 ^ Z.of_nat fuel ->
  number_of_digits (digits_fuel fuel z []) = z.
Proof.
  revert z. induction fuel as [|fuel IH]; intros z Hz.
  - change (2 ^ Z.of_nat 0) with 1 in Hz.
    change (number_of_digits (digits_fuel 0 z [])) with 0. lia.
  - rewrite Nat2Z.inj_succ, Z.pow_succ_r in Hz by lia.
    pose proof (Z.mod_pos_bound z 10 eq_refl) as Hmod.
    pose proof (Z.div_mod z 10) as Hdiv.
    cbn [digits_fuel]. destruct (z / 10 =? 0) eqn:E.
    + apply Z.eqb_eq in E.
      unfold number_of_digits. cbn [fold_left].
      rewrite digit_value_char by lia. lia.
    + apply Z.eqb_neq in E.
      rewrite digits_fuel_acc, number_of_digits_snoc, IH.
      * rewrite digit_value_char by lia. lia.
      * split; [apply Z.div_pos; lia|].
        apply Z.div_lt_upper_bound; lia.
Qed.

(** [digits] writes its argument: read back, the digits give the number. *)
Lemma digits_value (z : Z) : 0 <= z -> number_of_digits (digits z) = z.
Proof.
  intro Hz. unfold digits. apply digits_fuel_value.
  split; [assumption|].
  rewrite Nat2Z.inj_succ, Z2Nat.id by apply Z.log2_nonneg.
  destruct (Z.eq_dec z 0) as [->|Hnz]; [reflexivity|].
  apply Z.log2_spec. lia.
Qed.

Lemma digits_one (z : Z) : 0 <= z <= 9 -> digits z = [digit_char z].
Proof.
  intro Hz. unfold digits. cbn [digits_fuel].
  rewrite Z.div_small, Z.mod_small by lia. reflexivity.
Qed.

(** *** The rounding *)

(** [round_half_even] returns an integer nearest to the fraction, and the
    even one of the two when the fraction lies half-way. *)
Lemma round_half_even_nearest (num den : Z) :
  0 < den ->
  let r := round_half_even num den in
  2 * Z.abs (r * den - num) <= den
  /\ (2 * Z.abs (r * den - num) = den -> Z.even r = true).
Proof.
  intro Hden. unfold round_half_even.
  pose proof (Z.mod_pos_bound num den Hden) as Hmod.
  pose proof (Z.div_mod num den ltac:(lia)) as Hdiv.
  set (q := num / den) in *. set (m := num mod den) in *.
  destruct (2 * m ?= den) eqn:E.
  - apply Z.compare_eq_iff in E.
    destruct (Z.even q) eqn:Ev.
    + split; [nia|]. intros _. assumption.
    + split; [nia|]. intros _.
      rewrite Z.even_add, Ev. reflexivity.
  - rewrite Z.compare_lt_iff in E. split; [nia|]. intro H. nia.
  - rewrite Z.compare_gt_iff in E. split; [nia|]. intro H. nia.
Qed.

(** The rounded magnitude is an integer nearest to [m * 2^e * 10^ndigits]
    (exactly that number when [e >= 0]). *)
Lemma scaled_magnitude_nearest (ndigits : nat) (m : positive) (e : Z) :
  let k := scaled_magnitude ndigits m e in
  (0 <= e -> k = Zpos m * 2 ^ e * 10 ^ Z.of_nat ndigits)
  /\ (e < 0 ->
      2 * Z.abs (k * 2 ^ (- e) - Zpos m * 10 ^ Z.of_nat ndigits) <= 2 ^ (- e)
      /\ (2 * Z.abs (k * 2 ^ (- e) - Zpos m * 10 ^ Z.of_nat ndigits) = 2 ^ (- e)
          -> Z.even k = true)).
Proof.
  unfold scaled_magnitude. destruct e as [|p|p]; (split; [intro H|intro H]);
    try lia; try reflexivity.
  change (- Zneg p) with (Zpos p).
  apply round_half_even_nearest. apply Z.pow_pos_nonneg; lia.
Qed.

Lemma scaled_magnitude_nonneg (ndigits : nat) (m : positive) (e : Z) :
  0 <= scaled_magnitude ndigits m e.
Proof.
  unfold scaled_magnitude, round_half_even.
  assert (H10 : 0 < 10 ^ Z.of_nat ndigits) by (apply Z.pow_pos_nonneg; lia).
  destruct e as [|p|p].
  - nia.
  - assert (0 < 2 ^ Zpos p) by (apply Z.pow_pos_nonneg; lia). nia.
  - assert (Hd : 0 < 2 ^ Zpos p) by (apply Z.pow_pos_nonneg; lia).
    assert (Hq : 0 <= Zpos m * 10 ^ Z.of_nat ndigits / 2 ^ Zpos p)
      by (apply Z.div_pos; nia).
    destruct (_ ?= _); [destruct (Z.even _)| |]; lia.
Qed.

(** With [.1f] a finite number prints as its sign, the digits of the whole
    part, a point and exactly one digit. *)
Lemma format_fixed_one_decimal (x : float) :
  is_finite x = true ->
  format_fixed false 1 x
  = (sign_string (sign_bit x)
     ++ string_of_list_ascii (digits (rounded_units 1 x / 10))
     ++ "." ++ String (digit_char (rounded_units 1 x mod 10)) "")%string.
Proof.
  intro Hx.
  assert (Hk : 0 <= rounded_units 1 x mod 10 <= 9).
  { pose proof (Z.mod_pos_bound (rounded_units 1 x) 10 eq_refl). lia. }
  destruct x as [s|s| |s m e]; try discriminate; unfold format_fixed;
    cbn [rounded_units sign_bit] in *;
    change (10 ^ Z.of_nat 1) with 10;
    unfold fraction_digits; rewrite (digits_one _ Hk); reflexivity.
Qed.

Lemma append_empty_r (s : string) : (s ++ "")%string = s.
Proof. induction s as [|c s IH]; simpl; [reflexivity | now rewrite IH]. Qed.

(** With [,.0f] a finite number prints as its sign and the digits of the
    nearest integer, grouped by thousands. *)
Lemma format_fixed_grouped_integer (x : float) :
  is_finite x = true ->
  format_fixed true 0 x
  = (sign_string (sign_bit x)
     ++ string_of_list_ascii (group_thousands (digits (rounded_units 0 x))))%string.
Proof.
  intro Hx.
  destruct x as [s|s| |s m e]; try discriminate; unfold format_fixed;
    cbn [rounded_units sign_bit];
    change (10 ^ Z.of_nat 0) with 1; rewrite Z.div_1_r;
    now rewrite append_empty_r.
Qed.

(** The thresholds are nested: a float that reaches one reaches the
    smaller ones. *)
Lemma ge_billion_ge_million (a : float) :
  float_ge a billion = true -> float_ge a million = true.
Proof.
  unfold float_ge, SFleb. rewrite billion_value, million_value.
  destruct a as [s|s| |s m e]; try (destruct s); cbn [SFcompare];
    try discriminate; try reflexivity.
  destruct (Z.compare_spec (-23) e), (Z.compare_spec (-33) e);
    try lia; try discriminate; reflexivity.
Qed.

Lemma ge_million_ge_thousand (a : float) :
  float_ge a million = true -> float_ge a thousand = true.
Proof.
  unfold float_ge, SFleb. rewrite million_value, thousand_value.
  destruct a as [s|s| |s m e]; try (destruct s); cbn [SFcompare];
    try discriminate; try reflexivity.
  destruct (Z.compare_spec (-33) e), (Z.compare_spec (-43) e);
    try lia; try discriminate; reflexivity.
Qed.

Lemma below_million_below_billion (a : float) :
  float_ge a million = false -> float_ge a billion = false.
Proof.
  intro H. destruct (float_ge a billion) eqn:E; [|reflexivity].
  apply ge_billion_ge_million in E. congruence.
Qed.

Lemma below_thousand_below_million (a : float) :
  float_ge a thousand = false -> float_ge a million = false.
Proof.
  intro H. destruct (float_ge a million) eqn:E; [|reflexivity].
  apply ge_million_ge_thousand in E. congruence.
Qed.

(** C8.  [format_dollars_short] is a total function of its float argument
    (zero, negative and fractional inputs included) and always prints a
    text that starts with the dollar sign.  The thresholds are compared
    with the absolute value: an input of absolute value at least 1e9
    prints as the input divided by 1e9 with one decimal and the suffix B,
    otherwise at least 1e6 as millions with M, otherwise at least 1e3 as
    thousands with K, and any smaller input as the nearest integer with
    thousands separators.  The sign is kept: the text of a negated number
    is the text of the number with a minus sign after the dollar sign.  In
    particular 999, 1500, 2300000, 4000000000 and -500 print as in the
    specification. *)
Theorem format_dollars_short_spec :
  (format_dollars_short (float_of_Z 999) = "$999"%string
   /\ format_dollars_short (float_of_Z 1500) = "$1.5K"%string
   /\ format_dollars_short (float_of_Z 2300000) = "$2.3M"%string
   /\ format_dollars_short (float_of_Z 4000000000) = "$4.0B"%string
   /\ format_dollars_short (float_of_Z (-500)) = "$-500"%string)
  /\ (format_dollars_short (float_of_Z 0) = "$0"%string
      /\ format_dollars_short (float_div (float_of_Z 1999) (float_of_Z 2))
         = "$1,000"%string
      /\ format_dollars_short (float_div (float_of_Z (-4)) (float_of_Z 10))
         = "$-0"%string
      /\ format_dollars_short (float_div (float_of_Z (-123456789)) (float_of_Z 100))
         = "$-1.2M"%string)
  /\ (forall n, float_ge (SFabs n) billion = true ->
        format_dollars_short n
        = ("$" ++ format_fixed false 1 (float_div n billion) ++ "B")%string)
  /\ (forall n, float_ge (SFabs n) billion = false ->
        float_ge (SFabs n) million = true ->
        format_dollars_short n
        = ("$" ++ format_fixed false 1 (float_div n million) ++ "M")%string)
  /\ (forall n, float_ge (SFabs n) million = false ->
        float_ge (SFabs n) thousand = true ->
        format_dollars_short n
        = ("$" ++ format_fixed false 1 (float_div n thousand) ++ "K")%string)
  /\ (forall n, float_ge (SFabs n) thousand = false ->
        format_dollars_short n = ("$" ++ format_fixed true 0 n)%string)
  /\ (forall x, is_finite x = true ->
        format_fixed false 1 x
        = (sign_string (sign_bit x)
           ++ string_of_list_ascii (digits (rounded_units 1 x / 10))
           ++ "." ++ String (digit_char (rounded_units 1 x mod 10)) "")%string)
  /\ (forall x, is_finite x = true ->
        format_fixed true 0 x
        = (sign_string (sign_bit x)
           ++ string_of_list_ascii
                (group_thousands (digits (rounded_units 0 x))))%string)
  /\ (forall n, exists body : string,
        format_dollars_short n = ("$" ++ body)%string)
  /\ (forall n, n <> S754_nan -> sign_bit n = false ->
        exists body : string,
          format_dollars_short n = ("$" ++ body)%string
          /\ format_dollars_short (SFopp n) = ("$-" ++ body)%string).
Proof.
  split; [repeat split; vm_compute; reflexivity|].
  split; [repeat split; vm_compute; reflexivity|].
  split; [intros n H; rewrite format_dollars_short_unfold, H; reflexivity|].
  split.
  { intros n H1 H2. rewrite format_dollars_short_unfold, H1, H2. reflexivity. }
  split.
  { intros n H1 H2.
    rewrite format_dollars_short_unfold,
      (below_million_below_billion _ H1), H1, H2. reflexivity. }
  split.
  { intros n H.
    pose proof (below_thousand_below_million _ H) as Hm.
    rewrite format_dollars_short_unfold,
      (below_million_below_billion _ Hm), Hm, H. reflexivity. }
  split; [exact format_fixed_one_decimal|].
  split; [exact format_fixed_grouped_integer|].
  split; [exact format_dollars_short_prefix|].
  exact format_dollars_short_sign.
Qed.

(** ** Upload and schema validation *)

Lemma column_present_In (t : RawTable) (col : string) :
  column_present t col = true <-> In col (columns t).
Proof. apply (isin_In String.eqb String.eqb_eq). Qed.

Lemma has_required_columns_iff (t : RawTable) :
  has_required_columns t = true
  <-> forall col, In col REQUIRED_COLUMNS -> In col (columns t).
Proof.
  unfold has_required_columns. rewrite forallb_forall.
  split; intros H col Hcol.
  - apply column_present_In. now apply H.
  - apply column_present_In. now apply H.
Qed.

(** C9.  The schema check accepts a table exactly when each of the seven
    required column names occurs among its column names, compared as exact
    strings (so a name in another letter case does not count).  When a name
    is missing the upload is refused: an error is shown, the run stops and
    the session is left as it was, so no data frame is stored.  When all
    are present the table is stored as it was read and the script reruns;
    the cells play no part in the decision. *)
Theorem schema_validation (s : SessionState) (t : RawTable) :
  REQUIRED_COLUMNS
  = [ "Region"; "Loss Amount"; "Policy Type"; "Year"; "Claim Count";
      "Risk Category"; "Premium Collected" ]%string
  /\ (has_required_columns t = true
      <-> forall col, In col REQUIRED_COLUMNS -> In col (columns t))
  /\ (has_required_columns t = false ->
      session_after (handle_upload s (ReadOk t)) = s
      /\ shown_errors (handle_upload s (ReadOk t)) <> []
      /\ ended_by (handle_upload s (ReadOk t)) = Stop
      /\ df (session_after (handle_upload initial_session (ReadOk t))) = None)
  /\ (has_required_columns t = true ->
      session_after (handle_upload s (ReadOk t))
      = {| file_uploaded := true; df := Some t |}
      /\ shown_errors (handle_upload s (ReadOk t)) = []
      /\ ended_by (handle_upload s (ReadOk t)) = Rerun)
  /\ (forall other_cells,
      has_required_columns {| columns := columns t; cells := other_cells |}
      = has_required_columns t)
  /\ has_required_columns
       {| columns := [ "region"; "Loss Amount"; "Policy Type"; "Year";
                       "Claim Count"; "Risk Category"; "Premium Collected" ]%string;
          cells := [] |} = false.
Proof.
  split; [reflexivity|].
  split; [apply has_required_columns_iff|].
  split.
  { intro H. unfold handle_upload. rewrite H. simpl.
    repeat split. discriminate. }
  split.
  { intro H. unfold handle_upload. rewrite H. simpl. repeat split. }
  split; reflexivity.
Qed.

(** ** The scenario of the specification *)

(** With integer cells the figures are those of the scenario, whatever
    summation of floats the library uses. *)
Example scenario_region_A (fsum : list float -> float) :
  let fd := filtered_df scenario (only_region scenario "A") in
  List.length fd = 1%nat
  /\ total_premium fsum fd = Int64 200
  /\ total_loss fsum fd = Int64 100
  /\ loss_ratio fsum fd = Float64 (float_div (float_of_Z 1) (float_of_Z 2))
  /\ avg_severity fsum fd = Float64 (float_of_Z 50)
  /\ underwriting_margin fsum fd = Int64 100
  /\ margin_percent fsum fd = Float64 (float_div (float_of_Z 1) (float_of_Z 2)).
Proof.
  cbv zeta.
  repeat split; vm_compute; reflexivity.
Qed.

Example scenario_region_B (fsum : list float -> float) :
  let fd := filtered_df scenario (only_region scenario "B") in
  total_premium fsum fd = Int64 0
  /\ loss_ratio fsum fd = Int64 0
  /\ margin_percent fsum fd = Int64 0
  /\ claim_count fsum fd = Int64 0
  /\ avg_severity fsum fd = Int64 0
  /\ underwriting_margin fsum fd = Int64 (-50).
Proof.
  cbv zeta.
  repeat split; vm_compute; reflexivity.
Qed.

(** * Further properties of the code *)

(** ** Filter engine: selections as sets, composition *)

Lemma mask_ext (s1 s2 : FilterSelection) (r : PolicyRecord) :
  (selected s1 r <-> selected s2 r) -> mask s1 r = mask s2 r.
Proof.
  intro H. apply eq_true_iff_eq. now rewrite !mask_selected.
Qed.

(** X1.  The result of the filter depends only on which values each of the
    three selections contains, not on their order nor on repetitions. *)
Theorem selection_acts_as_set (d : DataFrame) (s1 s2 : FilterSelection) :
  same_members (region_filter s1) (region_filter s2) ->
  same_members (year_filter s1) (year_filter s2) ->
  same_members (policy_filter s1) (policy_filter s2) ->
  filtered_df d s1 = filtered_df d s2.
Proof.
  intros Hr Hy Hp. unfold filtered_df. apply filter_ext.
  intro r. apply mask_ext. unfold selected.
  now rewrite (Hr (Region r)), (Hy (Year r)), (Hp (Policy_Type r)).
Qed.

Lemma selection_acts_as_set_witness :
  filtered_df scenario
    {| region_filter := [Some "A"; Some "B"];
       year_filter := [Some (YearInt 2020)];
       policy_filter := [Some "X"; Some "Y"] |}
  = filtered_df scenario
      {| region_filter := [Some "B"; Some "A"; Some "B"];
         year_filter := [Some (YearInt 2020); Some (YearInt 2020)];
         policy_filter := [Some "Y"; Some "X"] |}.
Proof.
  apply selection_acts_as_set; intro x; simpl; tauto.
Defined.

Lemma filter_filter_comm {A : Type} (p q : A -> bool) (l : list A) :
  filter p (filter q l) = filter q (filter p l).
Proof.
  induction l as [|x l IH]; simpl; [reflexivity|].
  destruct (p x) eqn:Ep, (q x) eqn:Eq; simpl; rewrite ?Ep, ?Eq, IH; reflexivity.
Qed.

(** X2.  Filtering twice keeps exactly the rows that both selections
    select, and the two filters can be applied in either order. *)
Theorem filters_commute (d : DataFrame) (s1 s2 : FilterSelection) :
  filtered_df (filtered_df d s1) s2 = filtered_df (filtered_df d s2) s1
  /\ forall r, In r (filtered_df (filtered_df d s1) s2)
               <-> In r d /\ selected s1 r /\ selected s2 r.
Proof.
  split.
  - unfold filtered_df. apply filter_filter_comm.
  - intro r. rewrite !filtered_df_In. tauto.
Qed.

Lemma filter_subsequence {A : Type} (p : A -> bool) (l : list A) :
  subsequence (filter p l) l.
Proof.
  induction l as [|x l IH]; simpl; [constructor|].
  destruct (p x); constructor; assumption.
Qed.

(** X3.  Narrowing a selection narrows the result: when every value
    allowed by [s1] is allowed by [s2], the rows kept by [s1] are kept by
    [s2], in the same order, and filtering the result of [s2] by [s1] gives
    the result of [s1]. *)
Theorem narrower_selection_narrows (d : DataFrame) (s1 s2 : FilterSelection) :
  narrower s1 s2 ->
  filtered_df (filtered_df d s2) s1 = filtered_df d s1
  /\ subsequence (filtered_df d s1) (filtered_df d s2).
Proof.
  intros [Hr [Hy Hp]].
  assert (E : filtered_df (filtered_df d s2) s1 = filtered_df d s1).
  { unfold filtered_df. rewrite filter_filter_comm.
    apply filter_keeps_all. intros r Hin.
    apply filter_In in Hin. destruct Hin as [_ Hm].
    apply mask_selected in Hm. apply mask_selected.
    destruct Hm as [H1 [H2 H3]]. repeat split; auto. }
  split; [exact E|].
  rewrite <- E. apply filter_subsequence.
Qed.

Lemma narrower_selection_narrows_witness :
  filtered_df (filtered_df scenario (default_selection scenario))
              (only_region scenario "A")
  = filtered_df scenario (only_region scenario "A")
  /\ subsequence (filtered_df scenario (only_region scenario "A"))
                 (filtered_df scenario (default_selection scenario)).
Proof.
  apply narrower_selection_narrows.
  repeat split; intros x Hx; simpl in *; tauto.
Defined.

(** X4.  The options offered by each of the three multiselects are the
    values of its column, each listed once. *)
Theorem default_options_are_distinct_values (d : DataFrame) :
  (NoDup (region_filter (default_selection d))
   /\ forall v, In v (region_filter (default_selection d))
                <-> exists r, In r d /\ Region r = v)
  /\ (NoDup (year_filter (default_selection d))
      /\ forall v, In v (year_filter (default_selection d))
                   <-> exists r, In r d /\ Year r = v)
  /\ (NoDup (policy_filter (default_selection d))
      /\ forall v, In v (policy_filter (default_selection d))
                   <-> exists r, In r d /\ Policy_Type r = v).
Proof.
  unfold default_selection; simpl.
  repeat split;
    try apply (NoDup_unique text_eqb text_eqb_eq);
    try apply (NoDup_unique year_cell_eqb year_cell_eqb_eq);
    rewrite ?(In_unique text_eqb text_eqb_eq),
            ?(In_unique year_cell_eqb year_cell_eqb_eq), in_map_iff;
    intros [r Hr]; exists r; tauto.
Qed.

(** ** Metrics engine: integer columns *)

Lemma wrap64_mod (z : Z) : wrap64 z mod 2 ^ 64 = z mod 2 ^ 64.
Proof.
  unfold wrap64.
  rewrite Zminus_mod, Zmod_mod, <- Zminus_mod. f_equal. lia.
Qed.

Lemma wrap64_cong (a b : Z) : a mod 2 ^ 64 = b mod 2 ^ 64 -> wrap64 a = wrap64 b.
Proof.
  intro H. unfold wrap64.
  rewrite (Zplus_mod a), (Zplus_mod b), H. reflexivity.
Qed.

Lemma wrap64_add (a b : Z) : wrap64 (wrap64 a + wrap64 b) = wrap64 (a + b).
Proof.
  apply wrap64_cong.
  rewrite Zplus_mod, !wrap64_mod, <- Zplus_mod. reflexivity.
Qed.

Lemma wrap64_sub (a b : Z) : wrap64 (wrap64 a - wrap64 b) = wrap64 (a - b).
Proof.
  apply wrap64_cong.
  rewrite Zminus_mod, !wrap64_mod, <- Zminus_mod. reflexivity.
Qed.

Lemma wrap64_add_l (a b : Z) : wrap64 (wrap64 a + b) = wrap64 (a + b).
Proof.
  apply wrap64_cong.
  rewrite Zplus_mod, wrap64_mod, <- Zplus_mod. reflexivity.
Qed.

(** Differences taken with wrap-around add up to the difference of the
    sums. *)
Lemma wrapped_differences {A : Type} (f g : A -> Z) (l : list A) :
  wrap64 (fold_right Z.add 0 (map (fun x => wrap64 (f x - g x)) l))
  = wrap64 (fold_right Z.add 0 (map f l) - fold_right Z.add 0 (map g l)).
Proof.
  induction l as [|x l IH]; simpl; [reflexivity|].
  rewrite <- wrap64_add, IH, wrap64_add.
  rewrite wrap64_add_l. f_equal. lia.
Qed.

Lemma int_total_Permutation (s t : list number) :
  Permutation s t -> int_total s = int_total t.
Proof.
  unfold int_total.
  induction 1 as [|x s t _ IH|x y s|s t u _ IH1 _ IH2]; simpl; lia.
Qed.

Lemma forallb_Permutation {A : Type} (p : A -> bool) (s t : list A) :
  Permutation s t -> forallb p s = true -> forallb p t = true.
Proof.
  intros Hperm. rewrite !forallb_forall. intros H x Hx.
  apply H. eapply Permutation_in; [|exact Hx]. now apply Permutation_sym.
Qed.

Lemma column_sum_Permutation (float_sum : list float -> float) (s t : list number) :
  Permutation s t -> forallb is_int64 s = true ->
  column_sum float_sum s = column_sum float_sum t.
Proof.
  intros Hperm Hint.
  rewrite !column_sum_int;
    [| exact (forallb_Permutation _ _ _ Hperm Hint) | exact Hint].
  now rewrite (int_total_Permutation s t Hperm).
Qed.

Lemma integer_column_Permutation (col : PolicyRecord -> number) (fd fd' : DataFrame) :
  Permutation fd fd' -> integer_column col fd -> integer_column col fd'.
Proof. intro H. apply forallb_Permutation. exact H. Qed.

Lemma integer_column_app (col : PolicyRecord -> number) (fd1 fd2 : DataFrame) :
  integer_column col (fd1 ++ fd2) ->
  integer_column col fd1 /\ integer_column col fd2.
Proof.
  unfold integer_column. rewrite forallb_app. apply andb_true_iff.
Qed.

Lemma total_of_integer_column (fsum : list float -> float)
    (col : PolicyRecord -> number) (fd : DataFrame) :
  integer_column col fd ->
  Series_sum fsum (map col fd) = Int64 (wrap64 (int_total (map col fd))).
Proof.
  intro H. unfold Series_sum. apply column_sum_int.
  now apply integer_column_cells.
Qed.

Lemma total_Permutation (fsum : list float -> float)
    (col : PolicyRecord -> number) (fd fd' : DataFrame) :
  Permutation fd fd' -> integer_column col fd ->
  Series_sum fsum (map col fd) = Series_sum fsum (map col fd').
Proof.
  intros Hperm Hint. unfold Series_sum. apply column_sum_Permutation.
  - now apply Permutation_map.
  - now apply integer_column_cells.
Qed.

(** X6.  When the three measure columns hold integers, the seven figures
    do not depend on the order of the rows. *)
Theorem metrics_ignore_row_order (fsum : list float -> float) (fd fd' : DataFrame) :
  Permutation fd fd' ->
  integer_column Premium_Collected fd ->
  integer_column Loss_Amount fd ->
  integer_column Claim_Count fd ->
  total_premium fsum fd = total_premium fsum fd'
  /\ total_loss fsum fd = total_loss fsum fd'
  /\ claim_count fsum fd = claim_count fsum fd'
  /\ loss_ratio fsum fd = loss_ratio fsum fd'
  /\ avg_severity fsum fd = avg_severity fsum fd'
  /\ underwriting_margin fsum fd = underwriting_margin fsum fd'
  /\ margin_percent fsum fd = margin_percent fsum fd'.
Proof.
  intros H HP HL HC.
  assert (Hp : total_premium fsum fd = total_premium fsum fd')
    by now apply total_Permutation.
  assert (Hl : total_loss fsum fd = total_loss fsum fd')
    by now apply total_Permutation.
  assert (Hc : claim_count fsum fd = claim_count fsum fd')
    by now apply total_Permutation.
  unfold loss_ratio, avg_severity, margin_percent, underwriting_margin.
  rewrite Hp, Hl, Hc. repeat split.
Qed.

Lemma metrics_ignore_row_order_witness :
  total_premium sequential_sum scenario = total_premium sequential_sum (rev scenario)
  /\ total_loss sequential_sum scenario = total_loss sequential_sum (rev scenario)
  /\ claim_count sequential_sum scenario = claim_count sequential_sum (rev scenario)
  /\ loss_ratio sequential_sum scenario = loss_ratio sequential_sum (rev scenario)
  /\ avg_severity sequential_sum scenario = avg_severity sequential_sum (rev scenario)
  /\ underwriting_margin sequential_sum scenario
     = underwriting_margin sequential_sum (rev scenario)
  /\ margin_percent sequential_sum scenario
     = margin_percent sequential_sum (rev scenario).
Proof.
  apply metrics_ignore_row_order;
    [apply Permutation_rev | reflexivity | reflexivity | reflexivity].
Defined.

Lemma total_app (fsum : list float -> float) (col : PolicyRecord -> number)
    (fd1 fd2 : DataFrame) :
  integer_column col (fd1 ++ fd2) ->
  Series_sum fsum (map col (fd1 ++ fd2))
  = int_add (Series_sum fsum (map col fd1)) (Series_sum fsum (map col fd2)).
Proof.
  intro H. destruct (integer_column_app _ _ _ H) as [H1 H2].
  rewrite !total_of_integer_column by assumption.
  unfold int_add. cbn [int_value].
  rewrite wrap64_add, map_app, int_total_app. reflexivity.
Qed.

(** X7.  When the three measure columns hold integers, the three sums and
    the margin of two data frames put one after the other are the int64
    sums of theirs, and the margin of a data frame is the sum over its
    rows of premium minus loss. *)
Theorem sums_are_additive (fsum : list float -> float) (fd1 fd2 : DataFrame) :
  integer_column Premium_Collected (fd1 ++ fd2) ->
  integer_column Loss_Amount (fd1 ++ fd2) ->
  integer_column Claim_Count (fd1 ++ fd2) ->
  total_premium fsum (fd1 ++ fd2)
  = int_add (total_premium fsum fd1) (total_premium fsum fd2)
  /\ total_loss fsum (fd1 ++ fd2)
     = int_add (total_loss fsum fd1) (total_loss fsum fd2)
  /\ claim_count fsum (fd1 ++ fd2)
     = int_add (claim_count fsum fd1) (claim_count fsum fd2)
  /\ underwriting_margin fsum (fd1 ++ fd2)
     = int_add (underwriting_margin fsum fd1) (underwriting_margin fsum fd2)
  /\ underwriting_margin fsum fd1
     = Series_sum fsum
         (map (fun r => number_sub (Premium_Collected r) (Loss_Amount r)) fd1).
Proof.
  intros HP HL HC.
  destruct (integer_column_app _ _ _ HP) as [HP1 HP2].
  destruct (integer_column_app _ _ _ HL) as [HL1 HL2].
  split; [now apply total_app|].
  split; [now apply total_app|].
  split; [now apply total_app|].
  unfold underwriting_margin, total_premium, total_loss.
  rewrite !total_of_integer_column by assumption.
  unfold int_add. cbn [number_sub int_value].
  split.
  - rewrite !map_app, !int_total_app.
    rewrite !wrap64_sub, wrap64_add. f_equal. f_equal. lia.
  - assert (Hcells :
      map (fun r => number_sub (Premium_Collected r) (Loss_Amount r)) fd1
      = map (fun r => Int64 (wrap64 (int_value (Premium_Collected r)
                                     - int_value (Loss_Amount r)))) fd1).
    { apply map_ext_in. intros r Hr.
      unfold integer_column in HP1, HL1. rewrite forallb_forall in HP1, HL1.
      specialize (HP1 r Hr). specialize (HL1 r Hr).
      destruct (Premium_Collected r), (Loss_Amount r);
        try discriminate; reflexivity. }
    rewrite Hcells. unfold Series_sum.
    rewrite column_sum_int
      by (rewrite forallb_mapped; apply forallb_forall; reflexivity).
    rewrite wrap64_sub. unfold int_total. rewrite !map_map. cbn [int_value].
    f_equal. symmetry.
    apply (wrapped_differences
             (fun r => int_value (Premium_Collected r))
             (fun r => int_value (Loss_Amount r)) fd1).
Qed.

Lemma sums_are_additive_witness :
  total_premium sequential_sum (scenario ++ scenario)
  = int_add (total_premium sequential_sum scenario)
            (total_premium sequential_sum scenario)
  /\ total_loss sequential_sum (scenario ++ scenario)
     = int_add (total_loss sequential_sum scenario)
               (total_loss sequential_sum scenario)
  /\ claim_count sequential_sum (scenario ++ scenario)
     = int_add (claim_count sequential_sum scenario)
               (claim_count sequential_sum scenario)
  /\ underwriting_margin sequential_sum (scenario ++ scenario)
     = int_add (underwriting_margin sequential_sum scenario)
               (underwriting_margin sequential_sum scenario)
  /\ underwriting_margin sequential_sum scenario
     = Series_sum sequential_sum
         (map (fun r => number_sub (Premium_Collected r) (Loss_Amount r))
              scenario).
Proof.
  apply sums_are_additive; reflexivity.
Defined.

(** ** Aggregation engine: the shape of the tables *)

(** The place of a key in a sorted list of keys. *)
Fixpoint insert_key (k : label) (ks : list label) : list label :=
  match ks with
  | [] => [k]
  | k' :: ks' =>
      match label_compare k k' with
      | Lt => k :: ks
      | Eq => ks
      | Gt => k' :: insert_key k ks'
      end
  end.

Lemma accumulate_key_list {V : Type} (add : V -> V -> V) (k : label) (v : V)
    (t : list (label * V)) :
  map fst (accumulate add k v t) = insert_key k (map fst t).
Proof.
  induction t as [|[k' v'] t IH]; simpl; [reflexivity|].
  destruct (label_compare k k'); simpl; [reflexivity | reflexivity|].
  now rewrite IH.
Qed.

(** The keys of a grouping do not depend on what is gathered. *)
Lemma group_cells_key_list {V : Type} (key : PolicyRecord -> option label)
    (val : PolicyRecord -> V) (fd : DataFrame) :
  map fst (group_cells key val fd)
  = fold_left (fun ks r => match key r with
                           | Some k => insert_key k ks
                           | None => ks
                           end) fd [].
Proof.
  unfold group_cells.
  assert (G : forall t,
    map fst (fold_left (fun t r => match key r with
                                   | Some k => accumulate (@app V) k [val r] t
                                   | None => t
                                   end) fd t)
    = fold_left (fun ks r => match key r with
                             | Some k => insert_key k ks
                             | None => ks
                             end) fd (map fst t)).
  { induction fd as [|r fd IH]; intro t; simpl; [reflexivity|].
    rewrite IH. destruct (key r); [|reflexivity].
    now rewrite accumulate_key_list. }
  apply (G []).
Qed.

Lemma loss_group_keys (gsum : list float -> float) (d : dimension) (fd : DataFrame) :
  map fst (loss_group gsum d fd)
  = map fst (group_cells (group_key d) Loss_Amount fd).
Proof. unfold loss_group, groupby_sum. now rewrite map_map. Qed.

Lemma margin_group_keys (gsum : list float -> float) (d : dimension) (fd : DataFrame) :
  map mr_key (margin_group gsum d fd) = map fst (loss_group gsum d fd).
Proof.
  rewrite loss_group_keys. unfold margin_group. rewrite map_map.
  cbn [mr_key]. now rewrite !group_cells_key_list.
Qed.

Lemma loss_group_increasing (gsum : list float -> float) (d : dimension)
    (fd : DataFrame) :
  keys_increasing (loss_group gsum d fd).
Proof.
  unfold loss_group, groupby_sum.
  apply (map_keys_increasing (column_sum gsum)), group_cells_increasing.
Qed.

Lemma loss_group_key_rows (gsum : list float -> float) (d : dimension)
    (fd : DataFrame) (k : label) :
  In k (map fst (loss_group gsum d fd))
  <-> exists r, In r fd /\ group_key d r = Some k.
Proof.
  now rewrite loss_group_keys, group_cells_keys, present_keys_In.
Qed.

(** X9.  An aggregation table lists the group keys in strictly increasing
    order, hence each once; its keys are exactly the values of the grouping
    column that occur in the data, blank cells apart; and the two-measure
    table has the same keys, in the same order, as the loss table. *)
Theorem aggregation_table_keys (gsum : list float -> float) (d : dimension)
    (fd : DataFrame) :
  keys_increasing (loss_group gsum d fd)
  /\ NoDup (map fst (loss_group gsum d fd))
  /\ (forall k, In k (map fst (loss_group gsum d fd))
                <-> exists r, In r fd /\ group_key d r = Some k)
  /\ map mr_key (margin_group gsum d fd) = map fst (loss_group gsum d fd).
Proof.
  pose proof (loss_group_increasing gsum d fd) as H.
  split; [exact H|].
  split; [now apply increasing_NoDup|].
  split; [apply loss_group_key_rows | apply margin_group_keys].
Qed.

(** X10.  Every row of the loss table carries the sum, taken by the
    grouping, of the Loss Amount cells of the data rows of its group in
    row order, and every row of the two-measure table such sums of
    Premium Collected and of Loss Amount. *)
Theorem table_cells_are_group_sums (gsum : list float -> float) (d : dimension)
    (fd : DataFrame) :
  (forall k v, In (k, v) (loss_group gsum d fd) ->
     v = column_sum gsum (map Loss_Amount (group_rows (group_key d) k fd)))
  /\ (forall row, In row (margin_group gsum d fd) ->
        mr_premium row
        = column_sum gsum
            (map Premium_Collected (group_rows (group_key d) (mr_key row) fd))
        /\ mr_loss row
           = column_sum gsum
               (map Loss_Amount (group_rows (group_key d) (mr_key row) fd))).
Proof.
  split.
  - unfold loss_group, groupby_sum. intros k v Hin.
    apply in_map_iff in Hin. destruct Hin as [[k' cells] [E Hin]].
    inversion E; subst k v. cbn [snd].
    now rewrite (group_cells_entry _ _ _ _ _ Hin).
  - unfold margin_group. intros row Hin.
    apply in_map_iff in Hin. destruct Hin as [[k cells] [Hrow Hin]].
    subst row. cbn [mr_premium mr_loss mr_key fst snd].
    rewrite (group_cells_entry _ _ _ _ _ Hin), !map_map. split; reflexivity.
Qed.

(** X11.  When no data row has a blank cell in the grouping column and
    the two measure columns hold integers whose magnitudes add up to at
    most 2^53, the per-group margins of the two-measure table add up to
    the underwriting margin of the whole filtered data frame. *)
Theorem group_margins_sum_to_portfolio_margin (fsum gsum : list float -> float)
    (d : dimension) (fd : DataFrame) :
  no_blank_key d fd ->
  integer_column Loss_Amount fd ->
  integer_column Premium_Collected fd ->
  magnitude (map Loss_Amount fd) <= 2 ^ 53 ->
  magnitude (map Premium_Collected fd) <= 2 ^ 53 ->
  Series_sum fsum (map mr_margin (margin_group gsum d fd))
  = underwriting_margin fsum fd.
Proof.
  intros Hkeys HL HP HmL HmP.
  pose proof (integer_column_cells _ _ HL) as HL'.
  pose proof (integer_column_cells _ _ HP) as HP'.
  set (val := fun r : PolicyRecord => (Premium_Collected r, Loss_Amount r)).
  assert (Hcells :
    map mr_margin (margin_group gsum d fd)
    = map (fun kc : label * list (number * number) =>
             Int64 (wrap64 (int_total (map fst (snd kc))
                            - int_total (map snd (snd kc)))))
          (group_cells (group_key d) val fd)).
  { unfold margin_group. rewrite map_map. cbn [mr_margin]. fold val.
    apply map_ext_in. intros kc Hkc.
    rewrite (group_cell_exact (group_key d) val fst fd HP' HmP gsum kc Hkc).
    rewrite (group_cell_exact (group_key d) val snd fd HL' HmL gsum kc Hkc).
    reflexivity. }
  rewrite Hcells. unfold Series_sum.
  rewrite column_sum_int
    by (rewrite forallb_mapped; apply forallb_forall; reflexivity).
  unfold underwriting_margin, total_premium, total_loss.
  rewrite !total_of_integer_column by assumption.
  cbn [number_sub]. rewrite wrap64_sub.
  unfold int_total at 1. rewrite map_map. cbn [int_value].
  rewrite (wrapped_differences
             (fun kc : label * list (number * number) =>
                int_total (map fst (snd kc)))
             (fun kc : label * list (number * number) =>
                int_total (map snd (snd kc)))).
  rewrite (group_cells_table_total (group_key d) val fst fd Hkeys).
  rewrite (group_cells_table_total (group_key d) val snd fd Hkeys).
  reflexivity.
Qed.

(** In the scenario grouped by region the margins 100 and -50 of the two
    groups add up to the margin 50 of the portfolio. *)
Lemma group_margins_sum_to_portfolio_margin_witness :
  Series_sum sequential_sum
    (map mr_margin (margin_group sequential_sum ByRegion scenario))
  = underwriting_margin sequential_sum scenario.
Proof.
  apply group_margins_sum_to_portfolio_margin.
  - repeat constructor; simpl; discriminate.
  - reflexivity.
  - reflexivity.
  - vm_compute. discriminate.
  - vm_compute. discriminate.
Defined.

Lemma group_key_in_selection (gsum : list float -> float) (d : DataFrame)
    (sel : FilterSelection) (dim : dimension) (k : label) :
  In k (map fst (loss_group gsum dim (filtered_df d sel))) ->
  exists r, In r d /\ selected sel r /\ group_key dim r = Some k.
Proof.
  rewrite loss_group_key_rows.
  intros [r [Hr Hk]]. apply filtered_df_In in Hr. exists r. tauto.
Qed.

(** X12.  Tables computed on a filtered data frame show only selected
    values: grouped by Region, by Year or by Policy Type, every key of the
    table is a value of the corresponding selection. *)
Theorem tables_show_selected_values (gsum : list float -> float) (d : DataFrame)
    (sel : FilterSelection) :
  (forall k, In k (map fst (loss_group gsum ByRegion (filtered_df d sel))) ->
     exists v, k = LStr v /\ In (Some v) (region_filter sel))
  /\ (forall k, In k (map fst (loss_group gsum ByYear (filtered_df d sel))) ->
        exists y, k = year_label y /\ In (Some y) (year_filter sel))
  /\ (forall k, In k (map fst (loss_group gsum ByPolicyType (filtered_df d sel))) ->
        exists v, k = LStr v /\ In (Some v) (policy_filter sel))
  /\ (forall dim, map mr_key (margin_group gsum dim (filtered_df d sel))
                  = map fst (loss_group gsum dim (filtered_df d sel))).
Proof.
  split; [|split; [|split]].
  - intros k Hk. apply group_key_in_selection in Hk.
    destruct Hk as [r [_ [[Hr [Hy Hp]] Hkey]]]. cbn [group_key] in Hkey.
    destruct (Region r) as [v|] eqn:E; [|discriminate].
    exists v. split; [simpl in Hkey; congruence | exact Hr].
  - intros k Hk. apply group_key_in_selection in Hk.
    destruct Hk as [r [_ [[Hr [Hy Hp]] Hkey]]]. cbn [group_key] in Hkey.
    destruct (Year r) as [v|] eqn:E; [|discriminate].
    exists v. split; [simpl in Hkey; congruence | exact Hy].
  - intros k Hk. apply group_key_in_selection in Hk.
    destruct Hk as [r [_ [[Hr [Hy Hp]] Hkey]]]. cbn [group_key] in Hkey.
    destruct (Policy_Type r) as [v|] eqn:E; [|discriminate].
    exists v. split; [simpl in Hkey; congruence | exact Hp].
  - intro dim. apply margin_group_keys.
Qed.

Lemma unique_length_le {A : Type} (eqb : A -> A -> bool) (l : list A) :
  (List.length (unique eqb l) <= List.length l)%nat.
Proof.
  induction l as [|x l IH]; simpl; [lia|].
  pose proof (filter_length_le (fun y => negb (eqb x y)) (unique eqb l)). lia.
Qed.

Lemma present_keys_length (key : PolicyRecord -> option label) (fd : DataFrame) :
  (List.length (present_keys key fd) <= List.length fd)%nat.
Proof.
  unfold present_keys. induction fd as [|r fd IH]; simpl; [lia|].
  rewrite length_app. destruct (key r); simpl; lia.
Qed.

(** X13.  A table has one row per distinct value of the grouping column,
    blank cells apart: as many rows as the column has distinct values
    that are not blank, so never more rows than the data frame, and none
    when the data frame is empty. *)
Theorem one_table_row_per_distinct_value (gsum : list float -> float)
    (d : dimension) (fd : DataFrame) :
  List.length (loss_group gsum d fd)
  = List.length (unique label_eqb (present_keys (group_key d) fd))
  /\ List.length (margin_group gsum d fd) = List.length (loss_group gsum d fd)
  /\ (List.length (loss_group gsum d fd) <= List.length fd)%nat.
Proof.
  assert (E : List.length (loss_group gsum d fd)
              = List.length (unique label_eqb (present_keys (group_key d) fd))).
  { rewrite <- (length_map fst (loss_group gsum d fd)).
    apply Permutation_length, NoDup_Permutation.
    - apply increasing_NoDup, loss_group_increasing.
    - apply (NoDup_unique label_eqb label_eqb_eq).
    - intro k. rewrite loss_group_keys, group_cells_keys.
      now rewrite (In_unique label_eqb label_eqb_eq). }
  split; [exact E|]. split.
  - rewrite <- (length_map mr_key), margin_group_keys. apply length_map.
  - rewrite E.
    pose proof (unique_length_le label_eqb (present_keys (group_key d) fd)).
    pose proof (present_keys_length (group_key d) fd). lia.
Qed.

Lemma filter_Permutation {A : Type} (p : A -> bool) (l l' : list A) :
  Permutation l l' -> Permutation (filter p l) (filter p l').
Proof.
  induction 1 as [|x l l' _ IH|x y l|l l' l'' _ IH1 _ IH2]; simpl.
  - constructor.
  - destruct (p x); [now constructor | assumption].
  - destruct (p x), (p y); try apply perm_swap; apply Permutation_refl.
  - now transitivity (filter p l').
Qed.

Section TableOfPermutedRows.
Context {V W : Type}.
Variable key : PolicyRecord -> option label.
Variable val : PolicyRecord -> V.
Variable summary : list V -> W.

(** The table of the summaries of the groups. *)
Let table (fd : DataFrame) : list (label * W) :=
  map (fun kc : label * list V => (fst kc, summary (snd kc)))
      (group_cells key val fd).

Lemma table_Permutation_incl (fd fd' : DataFrame) :
  Permutation fd fd' ->
  (forall k, summary (map val (group_rows key k fd))
             = summary (map val (group_rows key k fd'))) ->
  forall kw, In kw (table fd) -> In kw (table fd').
Proof.
  intros Hperm Hsum kw Hin. unfold table in *.
  apply in_map_iff in Hin. destruct Hin as [[k cells] [E Hin]].
  subst kw. cbn [fst snd].
  assert (Hk : In k (map fst (group_cells key val fd'))).
  { apply group_cells_keys, present_keys_In.
    assert (Hk : In k (map fst (group_cells key val fd)))
      by (apply in_map_iff; now exists (k, cells)).
    apply group_cells_keys, present_keys_In in Hk.
    destruct Hk as [r [Hr Hkr]]. exists r. split; [|assumption].
    eapply Permutation_in; eassumption. }
  apply in_map_iff in Hk. destruct Hk as [[k' cells'] [Hk Hin']].
  simpl in Hk. subst k'.
  apply in_map_iff. exists (k, cells'). split; [|assumption].
  cbn [fst snd].
  rewrite (group_cells_entry key val k cells fd Hin).
  rewrite (group_cells_entry key val k cells' fd' Hin').
  now rewrite Hsum.
Qed.

(** Tables of two data frames with the same rows in another order are
    equal as soon as the summaries of their groups agree. *)
Lemma table_Permutation (fd fd' : DataFrame) :
  Permutation fd fd' ->
  (forall k, summary (map val (group_rows key k fd))
             = summary (map val (group_rows key k fd'))) ->
  table fd = table fd'.
Proof.
  intros Hperm Hsum.
  apply increasing_ext;
    try (apply (map_keys_increasing summary), group_cells_increasing).
  intro kw. split.
  - now apply table_Permutation_incl.
  - apply table_Permutation_incl; [now apply Permutation_sym|].
    intro k. symmetry. apply Hsum.
Qed.
End TableOfPermutedRows.

Lemma group_sum_Permutation (gsum : list float -> float) (d : dimension)
    (col : PolicyRecord -> number) (k : label) (fd fd' : DataFrame) :
  Permutation fd fd' -> integer_column col fd ->
  column_sum gsum (map col (group_rows (group_key d) k fd))
  = column_sum gsum (map col (group_rows (group_key d) k fd')).
Proof.
  intros Hperm Hint. apply column_sum_Permutation.
  - apply Permutation_map. unfold group_rows. now apply filter_Permutation.
  - rewrite forallb_mapped. unfold group_rows. now apply forallb_filter.
Qed.

Lemma tables_of_permuted_rows (gsum : list float -> float) (d : dimension)
    (fd fd' : DataFrame) :
  Permutation fd fd' ->
  integer_column Loss_Amount fd ->
  integer_column Premium_Collected fd ->
  loss_group gsum d fd = loss_group gsum d fd'
  /\ margin_group gsum d fd = margin_group gsum d fd'.
Proof.
  intros Hperm HL HP. split.
  - unfold loss_group, groupby_sum.
    apply (table_Permutation (group_key d) Loss_Amount (column_sum gsum));
      [assumption|].
    intro k. now apply group_sum_Permutation.
  - set (val := fun r : PolicyRecord => (Premium_Collected r, Loss_Amount r)).
    set (summary := fun cells : list (number * number) =>
                      (column_sum gsum (map fst cells),
                       column_sum gsum (map snd cells))).
    set (row := fun kw : label * (number * number) =>
                  {| mr_key := fst kw;
                     mr_premium := fst (snd kw);
                     mr_loss := snd (snd kw);
                     mr_margin := number_sub (fst (snd kw)) (snd (snd kw)) |}).
    assert (E : forall f,
      margin_group gsum d f
      = map row (map (fun kc : label * list (number * number) =>
                        (fst kc, summary (snd kc)))
                     (group_cells (group_key d) val f))).
    { intro f. unfold margin_group. rewrite map_map. reflexivity. }
    rewrite !E. f_equal.
    apply (table_Permutation (group_key d) val summary); [assumption|].
    intro k. unfold summary, val. rewrite !map_map. cbn [fst snd].
    f_equal; now apply group_sum_Permutation.
Qed.

(** X14.  When the two measure columns hold integers, the tables do not
    depend on the order of the data rows: two data frames with the same
    rows in another order give the same loss table and the same
    two-measure table, row for row. *)
Theorem tables_ignore_row_order (gsum : list float -> float) (d : dimension)
    (fd fd' : DataFrame) :
  Permutation fd fd' ->
  integer_column Loss_Amount fd ->
  integer_column Premium_Collected fd ->
  loss_group gsum d fd = loss_group gsum d fd'
  /\ margin_group gsum d fd = margin_group gsum d fd'.
Proof. apply tables_of_permuted_rows. Qed.

Lemma tables_ignore_row_order_witness :
  loss_group sequential_sum ByRegion scenario
  = loss_group sequential_sum ByRegion (rev scenario)
  /\ margin_group sequential_sum ByRegion scenario
     = margin_group sequential_sum ByRegion (rev scenario).
Proof.
  apply tables_ignore_row_order;
    [apply Permutation_rev | reflexivity | reflexivity].
Defined.

(** ** Currency display: exact amounts *)

Lemma Z_range_In (lo : Z) (n : nat) (z : Z) :
  lo <= z < lo + Z.of_nat n -> In z (Z_range lo n).
Proof.
  intro H. unfold Z_range. apply in_map_iff.
  exists (Z.to_nat (z - lo)). split; [lia|].
  apply in_seq. lia.
Qed.

Lemma small_integers_checked :
  forallb (fun z => String.eqb (format_dollars_short (float_of_Z z))
                               (plain_integer_text z))
          (Z_range (-999) 1999) = true.
Proof. vm_compute. reflexivity. Qed.

(** X15.  An integer amount between -999 and 999 prints as the dollar sign,
    a minus sign when it is negative, and its digits: no rounding and no
    suffix. *)
Theorem small_integers_print_exactly (z : Z) :
  -1000 < z < 1000 ->
  format_dollars_short (float_of_Z z) = plain_integer_text z.
Proof.
  intro H. apply String.eqb_eq.
  apply (proj1 (forallb_forall _ _) small_integers_checked).
  apply Z_range_In. lia.
Qed.

Lemma small_integers_print_exactly_witness :
  format_dollars_short (float_of_Z (-42)) = plain_integer_text (-42).
Proof. apply small_integers_print_exactly. lia. Defined.

(** ** Currency display: the digits and the separators *)

Lemma digit_char_not_comma (d : Z) :
  0 <= d <= 9 -> Ascii.eqb (digit_char d) "," = false.
Proof.
  intro H.
  assert (C : d = 0 \/ d = 1 \/ d = 2 \/ d = 3 \/ d = 4 \/ d = 5 \/ d = 6
              \/ d = 7 \/ d = 8 \/ d = 9) by lia.
  repeat (destruct C as [->|C]; [reflexivity|]). now subst.
Qed.

Lemma digits_fuel_no_comma (fuel : nat) (z : Z) (acc : list ascii) :
  remove_commas acc = acc ->
  remove_commas (digits_fuel fuel z acc) = digits_fuel fuel z acc.
Proof.
  revert z acc. induction fuel as [|fuel IH]; intros z acc Hacc; simpl;
    [assumption|].
  assert (Hnew : remove_commas (digit_char (z mod 10) :: acc)
                 = digit_char (z mod 10) :: acc).
  { unfold remove_commas in *. simpl.
    rewrite digit_char_not_comma, Hacc; [reflexivity|].
    pose proof (Z.mod_pos_bound z 10 eq_refl). lia. }
  destruct (z / 10 =? 0); [assumption | now apply IH].
Qed.

Lemma digits_no_comma (z : Z) : remove_commas (digits z) = digits z.
Proof. apply digits_fuel_no_comma. reflexivity. Qed.

Lemma remove_commas_app (l1 l2 : list ascii) :
  remove_commas (l1 ++ l2) = remove_commas l1 ++ remove_commas l2.
Proof. apply filter_app. Qed.

Lemma remove_commas_rev (l : list ascii) :
  remove_commas (rev l) = rev (remove_commas l).
Proof.
  induction l as [|c l IH]; simpl; [reflexivity|].
  rewrite remove_commas_app, IH. unfold remove_commas at 2 3. simpl.
  destruct (negb (Ascii.eqb c ",")); simpl; [reflexivity|].
  now rewrite app_nil_r.
Qed.

Lemma group_thousands_rev_no_comma (n : nat) (l : list ascii) :
  (List.length l <= n)%nat ->
  remove_commas (group_thousands_rev l) = remove_commas l.
Proof.
  revert l. induction n as [|n IH]; intros l Hlen.
  - destruct l; [reflexivity | simpl in Hlen; lia].
  - destruct l as [|a [|b [|c [|e l]]]]; try reflexivity.
    change (group_thousands_rev (a :: b :: c :: e :: l))
      with ([a; b; c] ++ [","%char] ++ group_thousands_rev (e :: l)).
    change (a :: b :: c :: e :: l) with ([a; b; c] ++ e :: l).
    rewrite !remove_commas_app, IH by (simpl in *; lia).
    reflexivity.
Qed.

Lemma group_thousands_short (ds : list ascii) :
  (List.length ds <= 3)%nat -> group_thousands ds = ds.
Proof.
  intro H. unfold group_thousands.
  assert (E : group_thousands_rev (rev ds) = rev ds).
  { pose proof (length_rev ds) as L.
    destruct (rev ds) as [|a [|b [|c [|e l]]]]; try reflexivity.
    simpl in L. lia. }
  rewrite E. apply rev_involutive.
Qed.

Lemma group_thousands_last_three (ds : list ascii) (a b c : ascii) :
  ds <> [] ->
  group_thousands (ds ++ [a; b; c])
  = group_thousands ds ++ [","%char; a; b; c].
Proof.
  intro H. unfold group_thousands.
  rewrite rev_app_distr. cbn [rev app].
  destruct (rev ds) as [|e l] eqn:E.
  - exfalso. apply H. rewrite <- (rev_involutive ds), E. reflexivity.
  - change (group_thousands_rev (c :: b :: a :: e :: l))
      with (c :: b :: a :: ","%char :: group_thousands_rev (e :: l)).
    cbn [rev]. rewrite <- !app_assoc. reflexivity.
Qed.

(** X16.  The thousands separators: a text of at most three digits is
    left as it is; before the last three digits of a longer text comes a
    comma, the digits before them being grouped in the same way; and
    taking the commas out of the grouped digits of a number gives its
    digits back. *)
Theorem thousands_separators :
  (forall ds, (List.length ds <= 3)%nat -> group_thousands ds = ds)
  /\ (forall ds a b c, ds <> [] ->
        group_thousands (ds ++ [a; b; c])
        = group_thousands ds ++ [","%char; a; b; c])
  /\ (forall z, remove_commas (group_thousands (digits z)) = digits z).
Proof.
  split; [exact group_thousands_short|].
  split; [exact group_thousands_last_three|].
  intro z. unfold group_thousands.
  rewrite remove_commas_rev,
    (group_thousands_rev_no_comma (List.length (rev (digits z)))) by lia.
  rewrite remove_commas_rev, rev_involutive. apply digits_no_comma.
Qed.

Lemma rounded_units_nonneg (ndigits : nat) (x : float) :
  0 <= rounded_units ndigits x.
Proof.
  destruct x; simpl; try lia. apply scaled_magnitude_nonneg.
Qed.

(** X17.  The digits printed for a finite float read back as its rounded
    magnitude: with [.1f], ten times the whole part plus the decimal is the
    magnitude in tenths; with [,.0f], the digits without their separators
    are the magnitude in units. *)
Theorem printed_digits_read_back (x : float) :
  is_finite x = true ->
  (exists (whole : list ascii) (d : ascii),
     format_fixed false 1 x
     = (sign_string (sign_bit x) ++ string_of_list_ascii whole
        ++ "." ++ String d "")%string
     /\ 10 * number_of_digits whole + digit_value d = rounded_units 1 x)
  /\ (exists grouped : list ascii,
        format_fixed true 0 x
        = (sign_string (sign_bit x) ++ string_of_list_ascii grouped)%string
        /\ number_of_digits (remove_commas grouped) = rounded_units 0 x).
Proof.
  intro Hx. split.
  - exists (digits (rounded_units 1 x / 10)), (digit_char (rounded_units 1 x mod 10)).
    split; [now apply format_fixed_one_decimal|].
    pose proof (rounded_units_nonneg 1 x) as Hk.
    pose proof (Z.mod_pos_bound (rounded_units 1 x) 10 eq_refl) as Hm.
    rewrite digits_value by (apply Z.div_pos; lia).
    rewrite digit_value_char by lia.
    pose proof (Z.div_mod (rounded_units 1 x) 10). lia.
  - exists (group_thousands (digits (rounded_units 0 x))).
    split; [now apply format_fixed_grouped_integer|].
    unfold group_thousands.
    rewrite remove_commas_rev,
      (group_thousands_rev_no_comma
         (List.length (rev (digits (rounded_units 0 x))))) by lia.
    rewrite remove_commas_rev, rev_involutive, digits_no_comma.
    apply digits_value, rounded_units_nonneg.
Qed.

Lemma printed_digits_read_back_witness :
  (exists (whole : list ascii) (d : ascii),
     format_fixed false 1 (float_of_Z 1500)
     = (sign_string (sign_bit (float_of_Z 1500)) ++ string_of_list_ascii whole
        ++ "." ++ String d "")%string
     /\ 10 * number_of_digits whole + digit_value d
        = rounded_units 1 (float_of_Z 1500))
  /\ (exists grouped : list ascii,
        format_fixed true 0 (float_of_Z 1500)
        = (sign_string (sign_bit (float_of_Z 1500))
           ++ string_of_list_ascii grouped)%string
        /\ number_of_digits (remove_commas grouped)
           = rounded_units 0 (float_of_Z 1500)).
Proof. apply printed_digits_read_back. reflexivity. Defined.

(** X18.  The rounded magnitude of a float [m * 2^e] in units of
    [10^-ndigits] is exact when [e >= 0]; otherwise it is an integer
    nearest to [m * 2^e * 10^ndigits], and the even one of the two when
    that number lies half-way between two integers. *)
Theorem printed_magnitude_is_nearest (ndigits : nat) (s : bool) (m : positive) (e : Z) :
  (0 <= e ->
   rounded_units ndigits (S754_finite s m e)
   = Zpos m * 2 ^ e * 10 ^ Z.of_nat ndigits)
  /\ (e < 0 ->
      2 * Z.abs (rounded_units ndigits (S754_finite s m e) * 2 ^ (- e)
                 - Zpos m * 10 ^ Z.of_nat ndigits) <= 2 ^ (- e)
      /\ (2 * Z.abs (rounded_units ndigits (S754_finite s m e) * 2 ^ (- e)
                     - Zpos m * 10 ^ Z.of_nat ndigits) = 2 ^ (- e)
          -> Z.even (rounded_units ndigits (S754_finite s m e)) = true)).
Proof.
  cbn [rounded_units].
  destruct (scaled_magnitude_nearest ndigits m e) as [H1 H2].
  split; assumption.
Qed.

(** X19.  A figure that is not a finite number never prints as digits:
    not-a-number prints as [$nan] and [nan%], the infinities as [$infB],
    [$-infB], [inf%] and [-inf%]. *)
Theorem non_finite_figures (n : float) :
  is_finite n = false ->
  (n = S754_nan
   /\ format_dollars_short n = "$nan"%string
   /\ format_percent n = "nan%"%string)
  \/ (n = S754_infinity false
      /\ format_dollars_short n = "$infB"%string
      /\ format_percent n = "inf%"%string)
  \/ (n = S754_infinity true
      /\ format_dollars_short n = "$-infB"%string
      /\ format_percent n = "-inf%"%string).
Proof.
  destruct n as [s|[|]| |s m e]; try discriminate; intros _.
  - right; right. repeat split.
  - right; left. repeat split.
  - left. repeat split.
Qed.

Lemma non_finite_figures_witness :
  (S754_nan = S754_nan
   /\ format_dollars_short S754_nan = "$nan"%string
   /\ format_percent S754_nan = "nan%"%string)
  \/ (S754_nan = S754_infinity false
      /\ format_dollars_short S754_nan = "$infB"%string
      /\ format_percent S754_nan = "inf%"%string)
  \/ (S754_nan = S754_infinity true
      /\ format_dollars_short S754_nan = "$-infB"%string
      /\ format_percent S754_nan = "-inf%"%string).
Proof. apply non_finite_figures. reflexivity. Defined.

(** ** Percentages *)

Lemma hundred_value : hundred = S754_finite false 7036874417766400 (-46).
Proof. reflexivity. Qed.

(** Multiplication by a positive finite float keeps the sign of the other
    factor and commutes with negation. *)
Lemma float_mul_sign (x : float) (mc : positive) (ec : Z) :
  x <> S754_nan ->
  SFmul prec emax x (S754_finite false mc ec) <> S754_nan
  /\ sign_bit (SFmul prec emax x (S754_finite false mc ec)) = sign_bit x
  /\ SFmul prec emax (SFopp x) (S754_finite false mc ec)
     = SFopp (SFmul prec emax x (S754_finite false mc ec)).
Proof.
  intro Hx.
  destruct x as [s|s| |s m e]; simpl; try contradiction;
    rewrite ?xorb_false_r; try (repeat split; discriminate).
  apply binary_round_aux_sign. lia.
Qed.

Lemma two_fraction_digits_checked :
  forallb (fun z => String.eqb
                      (string_of_list_ascii (fraction_digits 2 z))
                      (String (digit_char (z / 10))
                              (String (digit_char (z mod 10)) "")))
          (Z_range 0 100) = true.
Proof. vm_compute. reflexivity. Qed.

Lemma two_fraction_digits (z : Z) :
  0 <= z < 100 ->
  string_of_list_ascii (fraction_digits 2 z)
  = String (digit_char (z / 10)) (String (digit_char (z mod 10)) "").
Proof.
  intro H. apply String.eqb_eq.
  apply (proj1 (forallb_forall _ _) two_fraction_digits_checked).
  apply Z_range_In. lia.
Qed.

Lemma format_fixed_two_decimals (x : float) :
  is_finite x = true ->
  format_fixed false 2 x
  = (sign_string (sign_bit x)
     ++ string_of_list_ascii (digits (rounded_units 2 x / 100))
     ++ "." ++ String (digit_char (rounded_units 2 x mod 100 / 10))
                  (String (digit_char (rounded_units 2 x mod 100 mod 10)) ""))%string.
Proof.
  intro Hx.
  assert (Hk : 0 <= rounded_units 2 x mod 100 < 100)
    by apply (Z.mod_pos_bound _ 100 eq_refl).
  destruct x as [s|s| |s m e]; try discriminate; unfold format_fixed;
    cbn [rounded_units sign_bit] in *;
    change (10 ^ Z.of_nat 2) with 100;
    rewrite (two_fraction_digits _ Hk); reflexivity.
Qed.

(** X20.  The percentage format: the text of a negated number is the text
    of the number after a minus sign; when the float times 100 is finite,
    the text is the sign, the whole part, a point, exactly two decimals and
    the percent sign, and its digits read back as the magnitude of the
    product in hundredths.  The product is the float product: 0.01155
    prints as 1.16%, and the 0 of a guarded ratio as 0.00%. *)
Theorem percent_text :
  (forall x, x <> S754_nan -> sign_bit x = false ->
     format_percent (SFopp x) = ("-" ++ format_percent x)%string)
  /\ (forall x, is_finite (SFmul prec emax x hundred) = true ->
        exists (whole : list ascii) (d1 d2 : ascii),
          format_percent x
          = (sign_string (sign_bit (SFmul prec emax x hundred))
             ++ string_of_list_ascii whole ++ "."
             ++ String d1 (String d2 "") ++ "%")%string
          /\ 100 * number_of_digits whole + 10 * digit_value d1 + digit_value d2
             = rounded_units 2 (SFmul prec emax x hundred))
  /\ format_percent (float_div (float_of_Z 1155) (float_of_Z 100000))
     = "1.16%"%string
  /\ format_percent (float_of_Z 0) = "0.00%"%string.
Proof.
  split; [|split; [|split; vm_compute; reflexivity]].
  - intros x Hx Hs. unfold format_percent.
    change (float_of_Z 100) with hundred. rewrite hundred_value.
    destruct (float_mul_sign x 7036874417766400 (-46) Hx) as [Hn [Hsg Hopp]].
    rewrite Hopp, format_fixed_opp by congruence.
    reflexivity.
  - intros x Hfin. unfold format_percent.
    change (float_of_Z 100) with hundred.
    set (p := SFmul prec emax x hundred) in *.
    exists (digits (rounded_units 2 p / 100)),
           (digit_char (rounded_units 2 p mod 100 / 10)),
           (digit_char (rounded_units 2 p mod 100 mod 10)).
    split.
    + rewrite (format_fixed_two_decimals p Hfin).
      generalize (string_of_list_ascii (digits (rounded_units 2 p / 100))).
      intro w. destruct (sign_bit p); simpl;
        induction w as [|c w IH]; simpl; congruence.
    + pose proof (rounded_units_nonneg 2 p) as Hk.
      pose proof (Z.mod_pos_bound (rounded_units 2 p) 100 eq_refl) as Hm.
      pose proof (Z.mod_pos_bound (rounded_units 2 p mod 100) 10 eq_refl) as Hm2.
      pose proof (Z.div_mod (rounded_units 2 p) 100) as D1.
      pose proof (Z.div_mod (rounded_units 2 p mod 100) 10) as D2.
      assert (0 <= rounded_units 2 p mod 100 / 10 <= 9).
      { split; [apply Z.div_pos; lia|].
        apply Z.lt_succ_r. apply Z.div_lt_upper_bound; lia. }
      rewrite digits_value by (apply Z.div_pos; lia).
      rewrite !digit_value_char by lia. lia.
Qed.

(** ** The coloured boxes *)

(** X21.  The key figures are laid out over three columns, left to right
    and then again: the box of the item of rank [i] (from 0) is in column
    [i mod 3] with the colour of rank [i].  There are six colours and six
    column slots, so at most six boxes are written: items after the sixth
    would not be shown. *)
Theorem kpi_boxes_layout (items : list (string * string)) :
  List.length (kpi_boxes items) = Nat.min (List.length items) 6
  /\ forall i item, nth_error items i = Some item -> (i < 6)%nat ->
       exists color,
         nth_error kpi_colors i = Some color
         /\ nth_error (kpi_boxes items) i
            = Some {| box_column := (i mod 3)%nat; box_color := color;
                      box_label := fst item; box_value := snd item |}.
Proof.
  split.
  - destruct items as [|a [|b [|c [|d [|e [|f [|g items]]]]]]]; reflexivity.
  - intros i item Hitem Hi.
    destruct i as [|[|[|[|[|[|i]]]]]]; [| | | | | |lia];
      destruct items as [|a [|b [|c [|d [|e [|f items]]]]]];
      try discriminate; inversion Hitem; subst;
      eexists; split; reflexivity.
Qed.

(** ** The report *)

Lemma draw_items_nth (y : Z) (items : list (string * string)) (i : nat)
    (label value : string) :
  nth_error items i = Some (label, value) ->
  nth_error (draw_items y items) i
  = Some (DrawString 50 (y - 20 * Z.of_nat i) (label ++ ": " ++ value)).
Proof.
  revert y i. induction items as [|[l v] items IH]; intros y i H.
  - destruct i; discriminate.
  - destruct i as [|i].
    + inversion H; subst. simpl. now rewrite Z.sub_0_r.
    + cbn [draw_items nth_error] in *. rewrite (IH _ _ H).
      do 2 f_equal. lia.
Qed.

Lemma draw_items_length (y : Z) (items : list (string * string)) :
  List.length (draw_items y items) = List.length items.
Proof.
  revert y. induction items as [|[l v] items IH]; intro y; simpl;
    [reflexivity | now rewrite IH].
Qed.

Lemma draw_items_In (y : Z) (items : list (string * string)) (op : canvas_op) :
  In op (draw_items y items) ->
  exists i text, (i < List.length items)%nat
                 /\ op = DrawString 50 (y - 20 * Z.of_nat i) text.
Proof.
  revert y. induction items as [|[l v] items IH]; intros y H; [contradiction|].
  destruct H as [H|H].
  - exists 0%nat, (l ++ ": " ++ v)%string. split; [simpl; lia|].
    rewrite <- H. now rewrite Z.sub_0_r.
  - destruct (IH _ H) as [i [text [Hi Hop]]].
    exists (S i), text. split; [simpl; lia|].
    rewrite Hop. f_equal. lia.
Qed.

(** X22.  The report is the title, then one line per item in the order of
    the dictionary, then the saving of the file: the item of rank [i] is
    written as [label: value] at 50 points from the left and
    [height - 80 - 20 i] points from the bottom.  No page break is ever
    asked for. *)
Theorem report_lines (height : Z) (items : list (string * string)) :
  (forall i label value, nth_error items i = Some (label, value) ->
     nth_error (generate_pdf_report height items) (3 + i)
     = Some (DrawString 50 (height - 80 - 20 * Z.of_nat i)
                        (label ++ ": " ++ value)))
  /\ List.length (generate_pdf_report height items)
     = (4 + List.length items)%nat
  /\ nth_error (generate_pdf_report height items) (3 + List.length items)
     = Some Save
  /\ ~ In ShowPage (generate_pdf_report height items).
Proof.
  unfold generate_pdf_report. split; [|split; [|split]].
  - intros i label value H. cbn [app nth_error Nat.add].
    rewrite nth_error_app1
      by (rewrite draw_items_length; apply nth_error_Some; congruence).
    now apply draw_items_nth.
  - cbn [app List.length]. rewrite length_app, draw_items_length. simpl. lia.
  - cbn [app nth_error Nat.add].
    rewrite nth_error_app2 by (rewrite draw_items_length; lia).
    rewrite draw_items_length, Nat.sub_diag. reflexivity.
  - cbn [app]. intros [H|[H|[H|H]]]; try discriminate.
    apply in_app_or in H. destruct H as [H|[H|[]]]; [|discriminate].
    apply draw_items_In in H. destruct H as [i [text [_ H]]]. discriminate.
Qed.

(** X23.  On a page at least 80 points high every text of the report is
    written at a non-negative height exactly when twenty times the number
    of items is at most the page height less 60; a longer dictionary runs
    off the bottom of the page.  On the letter page (792 points) this is
    up to 36 items. *)
Theorem report_fits_page (height : Z) (items : list (string * string)) :
  80 <= height ->
  (20 * Z.of_nat (List.length items) <= height - 60
   <-> forall x y text,
         In (DrawString x y text) (generate_pdf_report height items) -> 0 <= y).
Proof.
  intro Hh. unfold generate_pdf_report. split.
  - intros Hfit x y text Hin. cbn [app] in Hin.
    destruct Hin as [H|[H|[H|H]]]; try discriminate.
    + assert (Hy : y = height - 40) by congruence. lia.
    + apply in_app_or in H. destruct H as [H|[H|[]]]; [|discriminate].
      apply draw_items_In in H. destruct H as [i [t [Hi H]]].
      assert (Hy : y = height - 80 - 20 * Z.of_nat i) by congruence. lia.
  - intro Hall.
    destruct items as [|item items] using rev_ind; [simpl; lia|].
    clear IHitems. destruct item as [l v].
    assert (Hn : nth_error (items ++ [(l, v)]) (List.length items) = Some (l, v)).
    { rewrite nth_error_app2 by lia. now rewrite Nat.sub_diag. }
    pose proof (draw_items_nth (height - 80) _ _ _ _ Hn) as Hdraw.
    apply nth_error_In in Hdraw.
    specialize (Hall 50 (height - 80 - 20 * Z.of_nat (List.length items))
                     (l ++ ": " ++ v)%string).
    rewrite length_app. simpl List.length.
    assert (0 <= height - 80 - 20 * Z.of_nat (List.length items)).
    { apply Hall. cbn [app]. do 3 right. apply in_or_app. now left. }
    lia.
Qed.

Lemma report_fits_page_witness :
  20 * Z.of_nat (List.length scenario_kpis) <= 792 - 60
  <-> forall x y text,
        In (DrawString x y text)
           (generate_pdf_report 792 scenario_kpis)
        -> 0 <= y.
Proof. apply report_fits_page. lia. Defined.

(** ** The session *)

Lemma script_run_uploaded (s : SessionState) (u : option read_result) :
  file_uploaded s = true ->
  script_run s u = {| session_after := s; shown_errors := []; ended_by := EndOfScript |}.
Proof. intro H. unfold script_run. now rewrite H. Qed.

Lemma run_all_uploaded (s : SessionState) (uploads : list (option read_result)) :
  file_uploaded s = true -> run_all s uploads = s.
Proof.
  intro H. unfold run_all. induction uploads as [|u uploads IH]; simpl;
    [reflexivity|].
  now rewrite script_run_uploaded.
Qed.

Lemma run_all_first_accepted (uploads : list (option read_result)) :
  run_all initial_session uploads
  = match first_accepted uploads with
    | Some t => {| file_uploaded := true; df := Some t |}
    | None => initial_session
    end.
Proof.
  unfold run_all.
  induction uploads as [|u uploads IH]; [reflexivity|].
  cbn [fold_left first_accepted].
  destruct u as [[e|t]|]; try exact IH.
  unfold script_run, handle_upload. cbn [initial_session file_uploaded negb].
  destruct (has_required_columns t) eqn:E; cbn [negb session_after];
    [|exact IH].
  now apply (run_all_uploaded {| file_uploaded := true; df := Some t |}).
Qed.

Lemma first_accepted_has_columns (uploads : list (option read_result)) (t : RawTable) :
  first_accepted uploads = Some t -> has_required_columns t = true.
Proof.
  induction uploads as [|[[e|t']|] rest IH]; intro H; simpl in H;
    try discriminate; try (now apply IH).
  destruct (has_required_columns t') eqn:E; [|now apply IH].
  inversion H; now subst.
Qed.

(** X24.  Whatever happens on the welcome screen in a series of runs, the
    session ends up holding the first file that was read and has the
    required columns, and nothing if there was none: unreadable and
    rejected files leave no trace and can be followed by another try. *)
Theorem session_holds_first_accepted_file (uploads : list (option read_result)) :
  run_all initial_session uploads
  = match first_accepted uploads with
    | Some t => {| file_uploaded := true; df := Some t |}
    | None => initial_session
    end.
Proof. exact (run_all_first_accepted uploads). Qed.

(** X25.  Once a file is accepted the session is never changed again:
    every later run shows the dashboard of the same data frame, without
    error, whatever the uploader holds; and in every session the script
    can reach, the flag [file_uploaded] is set exactly when a data frame
    with the seven required columns is stored. *)
Theorem accepted_file_is_kept (uploads more : list (option read_result)) :
  (file_uploaded (run_all initial_session uploads) = true ->
   run_all (run_all initial_session uploads) more
   = run_all initial_session uploads
   /\ forall u, script_run (run_all initial_session uploads) u
                = {| session_after := run_all initial_session uploads;
                     shown_errors := []; ended_by := EndOfScript |})
  /\ (file_uploaded (run_all initial_session uploads) = true
      <-> exists t, df (run_all initial_session uploads) = Some t
                    /\ forall col, In col REQUIRED_COLUMNS -> In col (columns t)).
Proof.
  split.
  - intro H. split; [now apply run_all_uploaded|].
    intro u. now apply script_run_uploaded.
  - rewrite run_all_first_accepted.
    destruct (first_accepted uploads) as [t|] eqn:E; simpl.
    + split; [|reflexivity]. intros _. exists t. split; [reflexivity|].
      apply has_required_columns_iff.
      now apply (first_accepted_has_columns uploads).
    + split; [discriminate|]. intros [t [H _]]. discriminate.
Qed.
